(** * qfbackend: the slug generator, the connection middleware and the
      eight CRUD handlers of [src/index.ts]

    The development has three parts.
    - [Js]: ECMAScript strings as sequences of UTF-16 code units, the
      built-ins [trim] and [toLowerCase], and the part of
      [String.prototype.replace] that the five regular expressions of
      [slugify] use, as a small backtracking matcher.
    - [Slug]: [slugify] as the source writes it (a chain of [replace]
      calls), the same transformation as the specification words it (list
      functions), and the proof that the two agree.
    - [Api]: the database driver as a state-and-exception monad over a
      model of the two tables, the middleware and the route handlers
      transcribed into it. *)

From Stdlib Require Import List NArith ZArith Bool String Ascii Lia.
Import ListNotations.

Set Implicit Arguments.

(* ================================================================= *)
(** ** ECMAScript strings *)

Module Js.

Local Open Scope N_scope.

(** A string value is a finite sequence of 16-bit code units. *)
Abbreviation codeunit := N (only parsing).
Abbreviation jsstring := (list N) (only parsing).

(** String literals of the source, all ASCII, unit by unit. *)
Fixpoint lit (s : string) : jsstring :=
  match s with
  | EmptyString => []
  | String a t => N_of_ascii a :: lit t
  end.

Definition jsstring_eqb (a b : jsstring) : bool :=
  if list_eq_dec N.eq_dec a b then true else false.

(** The values a JSON body can put under a key, as far as [slugify] and
    the handlers tell them apart: the falsy ones ([undefined] for an absent
    key, [null], [false], the number zero, the empty string among the
    strings) and the truthy ones, where every truthy value that is not a
    string ([true], a non-zero number, an array, an object) is carried
    with the text its [toString()] yields.  An object whose [toString()]
    throws is not among them: where [slugify] is called, [Api.asJs] tells
    it apart and the call throws. *)
Inductive jsvalue :=
| JUndefined
| JNull
| JFalse
| JZero
| JString (s : jsstring)
| JTruthy (rendering : jsstring).

(** [!v] is [negb (truthy v)]. *)
Definition truthy (v : jsvalue) : bool :=
  match v with
  | JString [] => false
  | JString (_ :: _) => true
  | JTruthy _ => true
  | JUndefined | JNull | JFalse | JZero => false
  end.

(** [v.toString()]; a TypeError on [undefined] and [null], which is why
    the result is optional. *)
Definition toString (v : jsvalue) : option jsstring :=
  match v with
  | JString s => Some s
  | JTruthy r => Some r
  | JFalse => Some (lit "false")
  | JZero => Some (lit "0")
  | JUndefined | JNull => None
  end.

(** *** Character classes *)

Definition between (lo hi c : N) : bool := (lo <=? c) && (c <=? hi).

(** [\s], which is also what [trim] strips: WhiteSpace and LineTerminator
    of the language grammar. *)
Definition isSpace (c : N) : bool :=
  between 9 13 c || (c =? 32) || (c =? 160) || (c =? 5760)
  || between 8192 8202 c || (c =? 8232) || (c =? 8233) || (c =? 8239)
  || (c =? 8287) || (c =? 12288) || (c =? 65279).

Definition isDigit (c : N) : bool := between 48 57 c.
Definition isUpper (c : N) : bool := between 65 90 c.
Definition isLower (c : N) : bool := between 97 122 c.

(** [\w] without the unicode and ignoreCase flags: [A-Za-z0-9_]. *)
Definition isWord (c : N) : bool :=
  isLower c || isUpper c || isDigit c || (c =? 95).

Definition hyphen : N := 45.
Definition isHyphen (c : N) : bool := c =? hyphen.

(** [[^\w\-]]. *)
Definition notWordOrHyphen (c : N) : bool := negb (isWord c || isHyphen c).

(** *** List helpers *)

Section While.
Variable A : Type.
Variable p : A -> bool.

Fixpoint dropWhile (s : list A) : list A :=
  match s with
  | [] => []
  | c :: t => if p c then dropWhile t else s
  end.

Definition dropWhileEnd (s : list A) : list A := rev (dropWhile (rev s)).
End While.

(** *** Built-ins *)

(** [String.prototype.trim]. *)
Definition trim (s : jsstring) : jsstring :=
  dropWhileEnd isSpace (dropWhile isSpace s).

(** [String.prototype.toLowerCase] follows Unicode's case tables, which
    are the engine's and not the repository's.  The model keeps the
    entries whose image has an ASCII unit: the Latin capitals, U+0130
    (whose image is [i] followed by U+0307) and U+212A (the Kelvin sign,
    whose image is [k]).  Every other unit is left as it is: the built-in
    sends it to units that are neither ASCII nor white space, and
    [slugify] deletes those in its fourth step whatever they are.  The
    results of section [Generic] below hold for any lowering function with
    the two properties stated there. *)
Definition lowerUnit (c : N) : jsstring :=
  if isUpper c then [c + 32]
  else if c =? 304 then [105; 775]
  else if c =? 8490 then [107]
  else [c].

Definition toLowerCase (s : jsstring) : jsstring := flat_map lowerUnit s.

(** *** Regular expressions

    The fragment that the source uses: one atom (a literal or a class,
    both given by their predicate), a greedy [atom+], sequence, and the
    two assertions [^] and [$] (no multiline flag). *)
Inductive regex :=
| One (p : N -> bool)
| Many (p : N -> bool)
| Seq (r1 r2 : regex)
| Bol
| Eol.

(** After a first atom: take as many more as there are, and give units
    back one at a time while the continuation fails. *)
Fixpoint manyK (p : N -> bool) (s : jsstring)
    (k : jsstring -> option jsstring) : option jsstring :=
  match s with
  | c :: t =>
      if p c then
        match manyK p t k with
        | Some r => Some r
        | None => k s
        end
      else k s
  | [] => k []
  end.

(** [matchK r bol s k] matches [r] at the head of [s]; [bol] tells
    whether [s] is the whole input.  The continuation receives what is
    left; the result is what is left after the whole match. *)
Fixpoint matchK (r : regex) (bol : bool) (s : jsstring)
    (k : bool -> jsstring -> option jsstring) : option jsstring :=
  match r with
  | One p =>
      match s with
      | c :: t => if p c then k false t else None
      | [] => None
      end
  | Many p =>
      match s with
      | c :: t => if p c then manyK p t (k false) else None
      | [] => None
      end
  | Seq r1 r2 => matchK r1 bol s (fun b s' => matchK r2 b s' k)
  | Bol => if bol then k bol s else None
  | Eol => match s with [] => k bol s | _ :: _ => None end
  end.

Definition exec (r : regex) (bol : bool) (s : jsstring) : option jsstring :=
  matchK r bol s (fun _ rest => Some rest).

(** [s.replace(r, repl)] for [r] without the global flag: the leftmost
    match is replaced. *)
Fixpoint replaceFrom (r : regex) (repl : jsstring) (bol : bool)
    (s : jsstring) : jsstring :=
  match exec r bol s with
  | Some rest => repl ++ rest
  | None =>
      match s with
      | [] => []
      | c :: t => c :: replaceFrom r repl false t
      end
  end.

Definition replace (r : regex) (repl s : jsstring) : jsstring :=
  replaceFrom r repl true s.

(** [s.replace(r, repl)] for [r] with the global flag: matching resumes
    where the last match ended, one unit further after an empty match.
    The fuel bounds the number of resumptions. *)
Fixpoint replaceAllFrom (fuel : nat) (r : regex) (repl : jsstring)
    (bol : bool) (s : jsstring) : jsstring :=
  match fuel with
  | O => s
  | S fuel' =>
      match exec r bol s with
      | Some rest =>
          if (List.length rest <? List.length s)%nat
          then repl ++ replaceAllFrom fuel' r repl false rest
          else repl ++ match s with
                       | [] => []
                       | c :: t => c :: replaceAllFrom fuel' r repl false t
                       end
      | None =>
          match s with
          | [] => []
          | c :: t => c :: replaceAllFrom fuel' r repl false t
          end
      end
  end.

Definition replaceAll (r : regex) (repl s : jsstring) : jsstring :=
  replaceAllFrom (S (List.length s)) r repl true s.

End Js.

(* ================================================================= *)
(** ** The slug generator *)

Module Slug.

Import Js.

(** [slugify] of the source, lines 46 to 60, over the lowering function.
    [title] reaches it untyped from the request body, so the argument is
    any value; the guard [!str] leaves only truthy values for the chain,
    and [toString()] returns on all the values of [jsvalue] (the call on
    a value whose [toString()] throws is [Api.call_slugify]). *)
Definition slugifyWith (lower : jsstring -> jsstring) (str : jsvalue)
  : jsstring :=
  if negb (truthy str) then lit ""
  else
    match toString str with
    | None => lit ""
    | Some s0 =>
        let s1 := trim s0 in
        let s2 := lower s1 in
        let s3 := replaceAll (Many isSpace) (lit "-") s2 in
        let s4 := replaceAll (Many notWordOrHyphen) (lit "") s3 in
        let s5 := replaceAll (Seq (One isHyphen) (Many isHyphen)) (lit "-") s4 in
        let s6 := replace (Seq Bol (Many isHyphen)) (lit "") s5 in
        replace (Seq (Many isHyphen) Eol) (lit "") s6
    end.

Definition slugify (str : jsvalue) : jsstring := slugifyWith toLowerCase str.

(** *** The transformation as the specification words it *)

(** Step 3: every run of one or more white space characters becomes a
    single hyphen.  [inrun] tells that the previous unit was white space,
    so that its run has its hyphen already. *)
Fixpoint hyphenateRuns (inrun : bool) (s : jsstring) : jsstring :=
  match s with
  | [] => []
  | c :: t =>
      if isSpace c
      then (if inrun then hyphenateRuns true t
            else hyphen :: hyphenateRuns true t)
      else c :: hyphenateRuns false t
  end.

(** Step 4: a character stays when it is a word character (letter, digit,
    underscore) or a hyphen. *)
Definition keepWordOrHyphen (s : jsstring) : jsstring :=
  filter (fun c => isWord c || isHyphen c) s.

Definition startsWithHyphen (s : jsstring) : bool :=
  match s with
  | c :: _ => isHyphen c
  | [] => false
  end.

(** Step 5: of a run of two or more hyphens one is left, that is, a
    hyphen goes when a hyphen follows it. *)
Fixpoint collapseHyphens (s : jsstring) : jsstring :=
  match s with
  | [] => []
  | c :: t =>
      if isHyphen c && startsWithHyphen t then collapseHyphens t
      else c :: collapseHyphens t
  end.

(** Steps 6 and 7. *)
Definition stripLeading (s : jsstring) : jsstring := dropWhile isHyphen s.
Definition stripTrailing (s : jsstring) : jsstring := dropWhileEnd isHyphen s.

Definition pipeline (lower : jsstring -> jsstring) (s : jsstring) : jsstring :=
  stripTrailing
    (stripLeading
       (collapseHyphens
          (keepWordOrHyphen (hyphenateRuns false (lower (trim s)))))).

(** Steps 1 to 7 of section 4.1. *)
Definition slugify_spec (str : jsvalue) : jsstring :=
  match str with
  | JUndefined | JNull | JFalse | JZero => []
  | JString [] => []
  | JString s => pipeline toLowerCase s
  | JTruthy r => pipeline toLowerCase r
  end.

(** *** What the result looks like *)

Definition isSlugUnit (c : N) : bool :=
  isLower c || isDigit c || (c =? 95)%N || isHyphen c.

Fixpoint noDoubleHyphen (s : jsstring) : bool :=
  match s with
  | [] => true
  | c :: t => negb (isHyphen c && startsWithHyphen t) && noDoubleHyphen t
  end.

Definition endsWithHyphen (s : jsstring) : bool := startsWithHyphen (rev s).

Definition wellFormedSlug (s : jsstring) : bool :=
  forallb isSlugUnit s && noDoubleHyphen s
  && negb (startsWithHyphen s) && negb (endsWithHyphen s).

End Slug.

(* ================================================================= *)
(** ** The server *)

Module Api.

Import Js Slug.

Local Open Scope string_scope.
Local Open Scope list_scope.

(** *** The database

    The two tables live in an external PostgreSQL server.  The model gives
    the four statements of the source their SQL meaning on lists of rows.
    The schema is not in the repository: the columns are the ones the
    statements name ([slug], [title], [content], [created_date]), the
    first three hold text, the column [created_date] takes the time of
    insertion, and whatever makes the server reject a statement (a
    constraint of the schema, a lost connection) is among the faults
    below. *)

Inductive resource := Posts | Drafts.

(** A thrown value: the [message] that two handlers put in their
    response, and the rest of the object (stack, driver codes). *)
Record error := {
  message : jsstring;
  internals : jsstring
}.

(** A value under a key of the body, as the program uses it.  [slugify]
    sees whether it is truthy and what its [toString()] gives; the driver
    turns it into the text it sends ([prepareValue] of [pg]).
    - [Scalar v]: an absent key, [null], a boolean, a number or a string;
      of the truthy ones that are no string, [true] and the numbers, [v]
      carries the text of [toString()], which is also what the driver
      sends.
    - [Structured]: an array or an object, with what its [toString()]
      returns or throws (an own key [toString] of a JSON object is not
      callable, and the call throws a TypeError), and with the text the
      driver sends for it (an array literal, or [JSON.stringify]). *)
Inductive value :=
| Scalar (v : jsvalue)
| Structured (rendering : error + jsstring) (serialised : jsstring).

(** The argument as [slugify] gets to read it, or what reading it throws. *)
Definition asJs (x : value) : error + jsvalue :=
  match x with
  | Scalar v => inr v
  | Structured (inr r) _ => inr (JTruthy r)
  | Structured (inl e) _ => inl e
  end.

(** [prepareValue]: [undefined] and [null] go as NULL, every other value
    as text. *)
Definition prepareValue (x : value) : option jsstring :=
  match x with
  | Scalar JUndefined | Scalar JNull => None
  | Scalar JFalse => Some (lit "false")
  | Scalar JZero => Some (lit "0")
  | Scalar (JString s) => Some s
  | Scalar (JTruthy r) => Some r
  | Structured _ text => Some text
  end.

(** A row: [title] and [content] hold text or NULL. *)
Record row := {
  slug : jsstring;
  title : option jsstring;
  content : option jsstring;
  created_date : Z
}.

Record database := {
  posts : list row;
  drafts : list row;
  clock : Z
}.

Definition table (t : resource) (d : database) : list row :=
  match t with
  | Posts => posts d
  | Drafts => drafts d
  end.

Definition with_table (t : resource) (rows : list row) (d : database)
  : database :=
  match t with
  | Posts => {| posts := rows; drafts := drafts d; clock := clock d |}
  | Drafts => {| posts := posts d; drafts := rows; clock := clock d |}
  end.

(** The statements of the source with the values the handlers pass for
    their parameters, in the order of the placeholders:
    - [SELECT * FROM t ORDER BY created_date DESC]
    - [INSERT INTO t (slug, title, content) VALUES ($1, $2, $3) RETURNING *]
    - [UPDATE t SET title = $1, content = $2 WHERE slug = $3 RETURNING *]
    - [DELETE FROM t WHERE slug = $1 RETURNING *] *)
Inductive statement :=
| SelectAll (t : resource)
| InsertRow (t : resource) (p1 : jsstring) (p2 p3 : value)
| UpdateRows (t : resource) (p1 p2 : value) (p3 : jsstring)
| DeleteRows (t : resource) (p1 : jsstring).

(** [WHERE slug = s]. *)
Definition hasSlug (s : jsstring) (r : row) : bool := jsstring_eqb (slug r) s.

(** [SET title = ti, content = co]. *)
Definition setFields (ti co : option jsstring) (r : row) : row :=
  {| slug := slug r; title := ti; content := co;
     created_date := created_date r |}.

(** [ORDER BY created_date DESC], by insertion.  Rows of one date come
    out in the order of the table; SQL leaves their order open, and no
    statement below rests on it. *)
Fixpoint insertDesc (r : row) (l : list row) : list row :=
  match l with
  | [] => [r]
  | x :: t =>
      if (created_date x <? created_date r)%Z then r :: l
      else x :: insertDesc r t
  end.

Definition orderDesc (l : list row) : list row := fold_right insertDesc [] l.

(** The four statements on the tables, with the rows that [RETURNING *]
    or the SELECT gives back.  The place of a row in the list of its
    table is the model's own: SQL knows no such place. *)
Definition run (q : statement) (d : database) : database * list row :=
  match q with
  | SelectAll t => (d, orderDesc (table t d))
  | InsertRow t s ti co =>
      let r := {| slug := s; title := prepareValue ti;
                  content := prepareValue co; created_date := clock d |} in
      let d' := with_table t (table t d ++ [r]) d in
      ({| posts := posts d'; drafts := drafts d'; clock := (clock d + 1)%Z |},
       [r])
  | UpdateRows t ti co s =>
      let ti' := prepareValue ti in
      let co' := prepareValue co in
      let rows := map (fun r => if hasSlug s r then setFields ti' co' r else r)
                      (table t d) in
      (with_table t rows d,
       map (setFields ti' co') (filter (hasSlug s) (table t d)))
  | DeleteRows t s =>
      (with_table t (filter (fun r => negb (hasSlug s r)) (table t d)) d,
       filter (hasSlug s) (table t d))
  end.

(** *** The world of a request *)

(** A [pg] client is known by the number of its connection. *)
Record Client := { conn : nat }.

Inductive event :=
| Connected (id : nat)
| Queried (id : nat) (q : statement)
| Ended (id : nat).

Record world := {
  db : database;
  live : list nat;              (* the connections that are open *)
  opened : nat;                 (* how many were ever opened *)
  events : list event;          (* what the driver was asked, oldest first *)
  console : list (jsstring * error)
                                (* the [console.error] calls of the source *)
}.

(** What goes wrong around one request, if anything: opening the
    connection ([new Client], [client.connect()] or reading the
    certificate throws), or the one statement of the handler. *)
Record faults := {
  connect_fault : option error;
  query_fault : option error
}.

(** State and exceptions: an [async] function of the source is a
    computation that reads the faults, changes the world, and returns or
    throws. *)
Definition M (A : Type) : Type := faults -> world -> world * (error + A).

Definition ret {A} (a : A) : M A := fun _ w => (w, inr a).

Definition throw {A} (e : error) : M A := fun _ w => (w, inl e).

Definition bind {A B} (m : M A) (k : A -> M B) : M B :=
  fun f w =>
    match m f w with
    | (w', inr a) => k a f w'
    | (w', inl e) => (w', inl e)
    end.

(** [try { m } catch (error) { h error }]. *)
Definition try_catch {A} (m : M A) (h : error -> M A) : M A :=
  fun f w =>
    match m f w with
    | (w', inr a) => (w', inr a)
    | (w', inl e) => h e f w'
    end.

Declare Scope async_scope.
Delimit Scope async_scope with async.
Notation "x <- m ;; k" := (bind m (fun x => k))
  (at level 100, m at next level, right associativity) : async_scope.
Notation "m ;; k" := (bind m (fun _ => k))
  (at level 100, right associativity) : async_scope.
Local Open Scope async_scope.

Definition record (ev : event) (w : world) : world :=
  {| db := db w; live := live w; opened := opened w;
     events := events w ++ [ev]; console := console w |}.

Definition isLive (id : nat) (w : world) : bool := existsb (Nat.eqb id) (live w).

(** The world after a connection was opened: it gets the next number. *)
Definition opening (w : world) : world :=
  record (Connected (opened w))
    {| db := db w; live := opened w :: live w; opened := S (opened w);
       events := events w; console := console w |}.

(** The world after connection [id] was closed. *)
Definition closing (id : nat) (w : world) : world :=
  record (Ended id)
    {| db := db w; live := filter (fun i => negb (Nat.eqb id i)) (live w);
       opened := opened w; events := events w; console := console w |}.

(** Lines 23 to 38. *)
Definition connectToDB : M Client :=
  fun f w =>
    match connect_fault f with
    | Some e => (w, inl e)
    | None => (opening w, inr {| conn := opened w |})
    end.

(** Lines 41 to 43. *)
Definition disconnectFromDB (client : Client) : M unit :=
  fun _ w => (closing (conn client) w, inr tt).

Definition TypeError (msg : string) : error :=
  {| message := lit msg; internals := lit "TypeError" |}.

(** The world after connection [id] was asked [q], with the tables [d]. *)
Definition queried (id : nat) (q : statement) (d : database) (w : world)
  : world :=
  {| db := d; live := live w; opened := opened w;
     events := events w ++ [Queried id q]; console := console w |}.

(** [client.query(text, params)], the only way to the tables: it throws
    without a client or on a closed one, it throws the fault if there is
    one and leaves the tables as they are, and it runs the statement
    otherwise. *)
Definition query (client : option Client) (q : statement) : M (list row) :=
  fun f w =>
    match client with
    | None =>
        (w, inl (TypeError
                   "Cannot read properties of undefined (reading 'query')"))
    | Some cl =>
        if isLive (conn cl) w then
          match query_fault f with
          | Some e => (queried (conn cl) q (db w) w, inl e)
          | None =>
              let (d', rows) := run q (db w) in
              (queried (conn cl) q d' w, inr rows)
          end
        else (queried (conn cl) q (db w) w,
              inl {| message := lit "Client was closed and is not queryable";
                     internals := lit "Error" |})
    end.

Definition logged (label : jsstring) (e : error) (w : world) : world :=
  {| db := db w; live := live w; opened := opened w; events := events w;
     console := console w ++ [(label, e)] |}.

Definition console_error (label : jsstring) (e : error) : M unit :=
  fun _ w => (logged label e w, inr tt).

(** *** Requests and responses *)

(** The body of a request, as [await c.req.json()] followed by
    [const { title, content } = body] sees it: text that is not JSON,
    with what [c.req.json()] throws; the JSON [null], with what the
    destructuring throws; or any other JSON value with what it has under
    the two keys ([Scalar JUndefined] for an absent one). *)
Inductive body :=
| Malformed (e : error)
| ParsedNull (e : error)
| ParsedObject (title content : value).

(** The context [c] of a handler. *)
Record Context := {
  param_slug : jsstring;       (* c.req.param('slug') *)
  req_body : body;
  dbClient : option Client     (* c.get('dbClient') *)
}.

Definition set_dbClient (c : Context) (client : Client) : Context :=
  {| param_slug := param_slug c; req_body := req_body c;
     dbClient := Some client |}.

Inductive payload :=
| Rows (rows : list row)                      (* c.json(posts.rows) *)
| FirstRow (r : option row)                   (* c.json(result.rows[0]) *)
| Fields (fs : list (string * jsstring)).     (* c.json({ ... }) *)

(** What a handler returns: the response of [c.json(payload, status)],
    nothing after [c.status(500)] (which sets the status and returns
    [undefined]), or the framework's answer where no route matches. *)
Inductive response :=
| Json (p : payload) (status : Z)
| StatusOnly (status : Z)
| NoRoute.

Definition status_of (r : response) : Z :=
  match r with
  | Json _ st => st
  | StatusOnly st => st
  | NoRoute => 404
  end.

Definition req_json (c : Context) : M body :=
  match req_body c with
  | Malformed e => throw e
  | b => ret b
  end.

(** [const { title, content } = body]. *)
Definition destructure (b : body) : M (value * value) :=
  match b with
  | ParsedObject ti co => ret (ti, co)
  | ParsedNull e => throw e
  | Malformed e => throw e
  end.

(** [slugify(title)] as a call of a handler: it throws what
    [title.toString()] throws. *)
Definition call_slugify (x : value) : M jsstring :=
  match asJs x with
  | inr v => ret (slugify v)
  | inl e => throw e
  end.

(** The posts and the drafts handlers are the same text up to the name of
    the table and these two words. *)
Definition noun (t : resource) : string :=
  match t with Posts => "post" | Drafts => "draft" end.

Definition Noun (t : resource) : string :=
  match t with Posts => "Post" | Drafts => "Draft" end.

(** *** The handlers *)

(** [GET /api/posts] (lines 70 to 82) and [GET /api/drafts] (150 to 162). *)
Definition list_handler (t : resource) (c : Context) : M response :=
  let client := dbClient c in
  try_catch
    (rows <- query client (SelectAll t) ;;
     ret (Json (Rows rows) 200))
    (fun error =>
       console_error (lit "Error:") error ;;
       ret (StatusOnly 500)).

(** [POST /api/posts] (lines 84 to 99) and [POST /api/drafts] (164 to 179). *)
Definition create_handler (t : resource) (c : Context) : M response :=
  let client := dbClient c in
  try_catch
    (b <- req_json c ;;
     tc <- destructure b ;;
     let (title, content) := tc in
     slug <- call_slugify title ;;
     rows <- query client (InsertRow t slug title content) ;;
     ret (Json (FirstRow (nth_error rows 0)) 201))
    (fun error =>
       console_error (lit ("Error creating " ++ noun t ++ ":")) error ;;
       ret (StatusOnly 500)).

(** [PUT /api/posts/:slug] (lines 101 to 123) and [PUT /api/drafts/:slug]
    (181 to 203). *)
Definition update_handler (t : resource) (c : Context) : M response :=
  let client := dbClient c in
  let slug := param_slug c in
  try_catch
    (b <- req_json c ;;
     tc <- destructure b ;;
     let (title, content) := tc in
     rows <- query client (UpdateRows t title content slug) ;;
     if (List.length rows =? 0)%nat
     then ret (Json (Fields [("error", lit (Noun t ++ " not found"))]) 404)
     else ret (Json (FirstRow (nth_error rows 0)) 201))
    (fun error =>
       console_error (lit ("Error updating " ++ noun t ++ " ") ++ slug ++ lit ":")
         error ;;
       ret (Json (Fields [("error", lit ("Failed to update " ++ noun t));
                          ("message", message error)]) 500)).

(** [DELETE /api/posts/:slug] (lines 125 to 148) and
    [DELETE /api/drafts/:slug] (205 to 228). *)
Definition delete_handler (t : resource) (c : Context) : M response :=
  let client := dbClient c in
  let slug := param_slug c in
  try_catch
    (rows <- query client (DeleteRows t slug) ;;
     if (List.length rows =? 0)%nat
     then ret (Json (Fields [("error", lit (Noun t ++ " not found"))]) 404)
     else ret (Json (Fields [("message",
                              lit (Noun t ++ " with slug ") ++ slug
                              ++ lit " deleted successfully")]) 201))
    (fun error =>
       console_error (lit ("Error deleting " ++ noun t ++ " ") ++ slug ++ lit ":")
         error ;;
       ret (Json (Fields [("error", lit ("Failed to delete " ++ noun t));
                          ("message", message error)]) 500)).

(** *** The application *)

(** The database middleware, lines 63 to 68.  What [next] returns is
    handed on as the response of the request.  [next] is the rest of the
    chain; the handlers below catch what they throw, so under [fetch] it
    returns and the connection is closed. *)
Definition middleware (next : Context -> M response) (c : Context)
  : M response :=
  client <- connectToDB ;;
  let c := set_dbClient c client in
  r <- next c ;;
  disconnectFromDB client ;;
  ret r.

(** The method and path of a request, as the router tells them apart.
    The paths with [:slug] match a slug of one character or more; the
    handlers are modelled for every slug. *)
Inductive route :=
| GetAll (t : resource)
| Post (t : resource)
| Put (t : resource) (slug : jsstring)
| Delete (t : resource) (slug : jsstring)
| Unmatched.

Record request := {
  target : route;
  sent : body
}.

Definition slug_of (r : route) : jsstring :=
  match r with
  | Put _ s | Delete _ s => s
  | _ => []
  end.

Definition router (r : route) (c : Context) : M response :=
  match r with
  | GetAll t => list_handler t c
  | Post t => create_handler t c
  | Put t _ => update_handler t c
  | Delete t _ => delete_handler t c
  | Unmatched => ret NoRoute
  end.

(** What the CORS middleware of line 20 calls as [next]: the database
    middleware around the matching handler.  The requests are those that
    get that far, which are the requests of a method other than OPTIONS
    (see [App.app_fetch] for all of them). *)
Definition fetch (req : request) : M response :=
  middleware (router (target req))
    {| param_slug := slug_of (target req); req_body := sent req;
       dbClient := None |}.

(** *** Vocabulary of the statements below *)

Definition other (t : resource) : resource :=
  match t with Posts => Drafts | Drafts => Posts end.

(** A world is well formed when its open connections are among the ones
    it counted. *)
Definition wf (w : world) : Prop := Forall (fun i => i < opened w) (live w).

(** No fault, and a fault of the statement alone. *)
Definition healthy : faults := {| connect_fault := None; query_fault := None |}.

Definition failing (e : error) : faults :=
  {| connect_fault := None; query_fault := Some e |}.

(** An error as the driver throws them. *)
Definition timeout : error :=
  {| message := lit "connection terminated"; internals := lit "at Socket" |}.

(** A small world: one post, no draft, no connection. *)
Definition world0 : world :=
  {| db := {| posts := [ {| slug := lit "old-title";
                            title := Some (lit "Old Title");
                            content := Some (lit "text");
                            created_date := 3 |} ];
              drafts := [];
              clock := 5 |};
     live := [];
     opened := 0;
     events := [];
     console := [] |}.

(** The context in which the middleware calls the handler of [req]. *)
Definition handler_context (req : request) (client : Client) : Context :=
  {| param_slug := slug_of (target req); req_body := sent req;
     dbClient := Some client |}.

(** A request without a body: [c.req.json()] rejects. *)
Definition nobody : body :=
  Malformed {| message := lit "Unexpected end of JSON input";
               internals := lit "SyntaxError" |}.

(** A world with two posts and a draft. *)
Definition world2 : world :=
  {| db := {| posts := [ {| slug := lit "first"; title := Some (lit "First");
                            content := None; created_date := 1 |};
                         {| slug := lit "second"; title := Some (lit "Second");
                            content := Some (lit "text"); created_date := 2 |} ];
              drafts := [ {| slug := lit "sketch"; title := None;
                             content := None; created_date := 4 |} ];
              clock := 5 |};
     live := [];
     opened := 0;
     events := [];
     console := [] |}.

End Api.

(* ================================================================= *)
(** ** The application *)

Module App.

Import Js Api.

(** A request as it reaches the application.  Line 20 puts the CORS
    middleware of [hono/cors] before everything else: it answers a
    request of method OPTIONS itself, with status 204 and no body, and
    does not call [next]; for a request of another method it calls
    [next] (and sets headers, which the model leaves out). *)
Inductive inbound :=
| Preflight                  (* a request of method OPTIONS, to any path *)
| Passed (req : request).    (* a request of another method *)

Inductive answer :=
| NoContent                  (* 204, from the CORS middleware *)
| Answered (r : response).

Definition cors (next : request -> M response) (i : inbound) : M answer :=
  match i with
  | Preflight => ret NoContent
  | Passed req => bind (next req) (fun r => ret (Answered r))
  end.

(** [app.fetch], up to what the framework makes of the outcome of the
    chain: a response that the handlers built is sent as it is; for
    [StatusOnly], where a handler set a status and returned nothing, and
    for an error that the chain throws, the framework sends its own
    response of status 500 and writes its own line to the console. *)
Definition app_fetch (i : inbound) : M answer := cors fetch i.

End App.

(* ================================================================= *)
(** ** The connection parameters *)

Module Config.

Import Js.

Local Open Scope string_scope.
Local Open Scope list_scope.

(** The variables of [process.env] that [connectToDB] reads; an unset
    variable reads as [undefined]. *)
Record environment := {
  DB_USER : option jsstring;
  DB_PASSWORD : option jsstring;
  DB_HOST : option jsstring;
  DB_PORT : option jsstring;
  DB_NAME : option jsstring;
  DB_SSL : option jsstring
}.

(** The digits at the head of [s], read in base ten onto [acc]. *)
Fixpoint readDigits (acc : Z) (s : jsstring) : Z :=
  match s with
  | c :: t =>
      if isDigit c then readDigits (10 * acc + Z.of_N (c - 48)) t else acc
  | [] => acc
  end.

(** A number as [parseInt] returns it: NaN, an integer below 2^53 in
    size, which a double holds exactly, or the double that stands for a
    larger integer, which the model does not compute. *)
Inductive number :=
| NaN
| Exact (z : Z)
| Nearest (z : Z).

Definition toNumber (z : Z) : number :=
  if (Z.abs z <? 2 ^ 53)%Z then Exact z else Nearest z.

(** [parseInt(s, 10)]: white space is skipped, one sign is read, then the
    longest run of digits; NaN when there is no digit. *)
Definition parseInt10 (s : jsstring) : number :=
  let s1 := dropWhile isSpace s in
  let signed :=
    match s1 with
    | 45%N :: t => ((-1)%Z, t)
    | 43%N :: t => (1%Z, t)
    | _ => (1%Z, s1)
    end in
  match snd signed with
  | c :: _ =>
      if isDigit c then toNumber (fst signed * readDigits 0 (snd signed))
      else NaN
  | [] => NaN
  end.

(** The object handed to [new Client], lines 24 to 34. *)
Record dbConfig := {
  user : option jsstring;
  password : option jsstring;
  host : option jsstring;
  port : number;
  database : option jsstring;
  rejectUnauthorized : bool;
  ca : jsstring
}.

(** [ca_pem] is what [readFileSync('./ca.pem')] read. *)
Definition dbConfigOf (env : environment) (ca_pem : jsstring) : dbConfig :=
  {| user := DB_USER env;
     password := DB_PASSWORD env;
     host := DB_HOST env;
     port := parseInt10 match DB_PORT env with
                        | Some s => s
                        | None => lit "10708"
                        end;
     database := DB_NAME env;
     rejectUnauthorized :=
       match DB_SSL env with
       | Some s => jsstring_eqb s (lit "true")
       | None => false
       end;
     ca := ca_pem |}.

(** The number that a non-empty list of digits writes. *)
Definition decimalValue (ds : jsstring) : Z :=
  fold_left (fun a c => (10 * a + Z.of_N (c - 48))%Z) ds 0%Z.

Definition sampleEnv : environment :=
  {| DB_USER := Some (lit "avnadmin"); DB_PASSWORD := Some (lit "secret");
     DB_HOST := Some (lit "db.example.org"); DB_PORT := Some (lit " 5432");
     DB_NAME := Some (lit "defaultdb"); DB_SSL := Some (lit "TRUE") |}.

End Config.

(* ================================================================= *)
(** ** Vocabulary for whole requests *)

Module Requests.

Import Js Slug Api.

(** The statement a request sends to the database once its body is read:
    none for a body that does not destructure, none for a create whose
    title cannot be turned into a string, none where no route matches. *)
Definition statement_of (req : request) : option statement :=
  match target req, sent req with
  | GetAll t, _ => Some (SelectAll t)
  | Post t, ParsedObject ti co =>
      match asJs ti with
      | inr v => Some (InsertRow t (slugify v) ti co)
      | inl _ => None
      end
  | Put t s, ParsedObject ti co => Some (UpdateRows t ti co s)
  | Delete t s, _ => Some (DeleteRows t s)
  | _, _ => None
  end.

(** The table a request is about. *)
Definition resource_of (r : route) : option resource :=
  match r with
  | GetAll t | Post t | Put t _ | Delete t _ => Some t
  | Unmatched => None
  end.

(** Every slug in the two tables is a well-formed slug. *)
Definition slugsWellFormed (d : database) : Prop :=
  Forall (fun r => wellFormedSlug (slug r) = true) (posts d)
  /\ Forall (fun r => wellFormedSlug (slug r) = true) (drafts d).

(** The order of [ORDER BY created_date DESC]. *)
Definition newerFirst (a b : row) : Prop :=
  (created_date b <= created_date a)%Z.

(** The row an [UPDATE] with the values [ti] and [co] makes of [r]. *)
Definition updated (s : jsstring) (ti co : value) (r : row) : row :=
  if jsstring_eqb (slug r) s
  then {| slug := slug r; title := prepareValue ti;
          content := prepareValue co; created_date := created_date r |}
  else r.

(** The thrown value when a body does not destructure. *)
Definition body_error (b : body) : option error :=
  match b with
  | Malformed e => Some e
  | ParsedNull e => Some e
  | ParsedObject _ _ => None
  end.

(** What the handler of a request throws before it sends a statement, if
    anything: the error of its body (create and update), or of the
    [toString()] of the title (create). *)
Definition thrown_early (req : request) : option error :=
  match target req, sent req with
  | Post _, ParsedObject ti _ =>
      match asJs ti with
      | inl e => Some e
      | inr _ => None
      end
  | Post _, b | Put _ _, b => body_error b
  | _, _ => None
  end.

(** What the handler of a request catches, if anything. *)
Definition caught (req : request) (f : faults) : option error :=
  match thrown_early req, statement_of req with
  | Some e, _ => Some e
  | None, Some _ => query_fault f
  | None, None => None
  end.

End Requests.

(* ================================================================= *)
(** ** Facts about strings and the matcher *)

Module JsFacts.

Import Js.

Lemma jsstring_eqb_eq a b : jsstring_eqb a b = true <-> a = b.
Proof.
  unfold jsstring_eqb. destruct (list_eq_dec N.eq_dec a b); split;
    congruence.
Qed.

Lemma jsstring_eqb_neq a b : jsstring_eqb a b = false <-> a <> b.
Proof.
  unfold jsstring_eqb. destruct (list_eq_dec N.eq_dec a b); split;
    congruence.
Qed.

Section WhileFacts.
Variable A : Type.
Variable p : A -> bool.

Lemma dropWhile_length (s : list A) :
  (List.length (dropWhile p s) <= List.length s)%nat.
Proof.
  induction s as [|c t IH]; simpl; [lia|].
  destruct (p c); simpl; lia.
Qed.

Lemma dropWhile_incl (s : list A) x : In x (dropWhile p s) -> In x s.
Proof.
  induction s as [|c t IH]; simpl; [tauto|].
  destruct (p c); simpl; tauto.
Qed.

Lemma dropWhile_head (s : list A) :
  match dropWhile p s with
  | c :: _ => p c = false
  | [] => True
  end.
Proof.
  induction s as [|c t IH]; simpl; [exact I|].
  destruct (p c) eqn:E; [exact IH | exact E].
Qed.

Lemma dropWhile_all (s : list A) : forallb p s = true -> dropWhile p s = [].
Proof.
  induction s as [|c t IH]; simpl; [reflexivity|].
  destruct (p c); simpl; [exact IH | discriminate].
Qed.

Lemma dropWhile_keep (s : list A) :
  match s with c :: _ => p c = false | [] => True end ->
  dropWhile p s = s.
Proof. destruct s as [|c t]; simpl; [reflexivity|]. now intros ->. Qed.

Lemma forallb_rev (s : list A) : forallb p (rev s) = forallb p s.
Proof.
  induction s as [|c t IH]; simpl; [reflexivity|].
  rewrite forallb_app, IH. simpl. rewrite andb_true_r. apply andb_comm.
Qed.

Lemma dropWhile_snoc (s : list A) c :
  dropWhile p (s ++ [c]) =
  if forallb p s then (if p c then [] else [c]) else dropWhile p s ++ [c].
Proof.
  induction s as [|d t IH]; simpl; [reflexivity|].
  destruct (p d); simpl; [exact IH | reflexivity].
Qed.

(** The equation a right-to-left reading of [dropWhileEnd] gives. *)
Lemma dropWhileEnd_cons c (t : list A) :
  dropWhileEnd p (c :: t) =
  if forallb p (c :: t) then [] else c :: dropWhileEnd p t.
Proof.
  unfold dropWhileEnd. simpl rev. rewrite dropWhile_snoc, forallb_rev.
  simpl forallb. destruct (forallb p t) eqn:Et.
  - rewrite andb_true_r. destruct (p c); [reflexivity|].
    rewrite (dropWhile_all (rev t)); [reflexivity|].
    now rewrite forallb_rev.
  - rewrite andb_false_r, rev_app_distr. reflexivity.
Qed.

Lemma dropWhileEnd_incl (s : list A) x : In x (dropWhileEnd p s) -> In x s.
Proof.
  unfold dropWhileEnd. intros H. apply in_rev in H.
  apply dropWhile_incl in H. now apply in_rev.
Qed.

Lemma dropWhileEnd_keep (s : list A) :
  match rev s with c :: _ => p c = false | [] => True end ->
  dropWhileEnd p s = s.
Proof.
  intros H. unfold dropWhileEnd. rewrite dropWhile_keep by exact H.
  apply rev_involutive.
Qed.

(** What is left after [dropWhileEnd] begins as the list did. *)
Lemma dropWhileEnd_first (s : list A) :
  match dropWhileEnd p s with
  | c :: _ => exists t, s = c :: t
  | [] => True
  end.
Proof.
  destruct s as [|c t]; [exact I|].
  rewrite dropWhileEnd_cons. destruct (forallb p (c :: t)); [exact I|].
  now exists t.
Qed.
End WhileFacts.

(** *** The matcher on the five expressions of [slugify] *)

Lemma manyK_all p s :
  manyK p s (fun rest => Some rest) = Some (dropWhile p s).
Proof.
  induction s as [|c t IH]; simpl; [reflexivity|].
  destruct (p c); [now rewrite IH | reflexivity].
Qed.

(** [/p+/]: the longest run at the head. *)
Lemma exec_Many p b s :
  exec (Many p) b s =
  match s with
  | c :: t => if p c then Some (dropWhile p t) else None
  | [] => None
  end.
Proof.
  unfold exec. destruct s as [|c t]; simpl; [reflexivity|].
  destruct (p c); [apply manyK_all | reflexivity].
Qed.

(** [/pp+/]: a run of two or more. *)
Lemma exec_One_Many p b s :
  exec (Seq (One p) (Many p)) b s =
  match s with
  | c :: d :: t => if p c && p d then Some (dropWhile p t) else None
  | _ => None
  end.
Proof.
  unfold exec. destruct s as [|c [|d t]]; simpl.
  - reflexivity.
  - now destruct (p c).
  - destruct (p c); simpl; [|reflexivity].
    destruct (p d); [apply manyK_all | reflexivity].
Qed.

(** [/^p+/] matches at the first position only. *)
Lemma exec_Bol_Many p b s :
  exec (Seq Bol (Many p)) b s = if b then exec (Many p) b s else None.
Proof. unfold exec. simpl. now destruct b. Qed.

Lemma manyK_Eol p s :
  manyK p s (fun s' => matchK Eol false s' (fun _ rest => Some rest)) =
  if forallb p s then Some [] else None.
Proof.
  induction s as [|c t IH]; cbn [manyK forallb]; [reflexivity|].
  destruct (p c); [|reflexivity].
  rewrite IH. now destruct (forallb p t).
Qed.

(** [/p+$/] matches where nothing but [p] is left. *)
Lemma exec_Many_Eol p b s :
  exec (Seq (Many p) Eol) b s =
  match s with
  | [] => None
  | _ :: _ => if forallb p s then Some [] else None
  end.
Proof.
  unfold exec. destruct s as [|c t]; [reflexivity|].
  cbn [matchK forallb]. destruct (p c); [|reflexivity].
  rewrite andb_true_l. apply manyK_Eol.
Qed.

(** Fuel beyond the length of the input changes nothing. *)
Lemma replaceAllFrom_fuel r repl :
  forall n m b s,
    (List.length s < n)%nat -> (List.length s < m)%nat ->
    replaceAllFrom n r repl b s = replaceAllFrom m r repl b s.
Proof.
  induction n as [|n IH]; intros m b s Hn Hm; [lia|].
  destruct m as [|m]; [lia|]. simpl.
  destruct (exec r b s) as [rest|].
  - destruct (Nat.ltb_spec (List.length rest) (List.length s)).
    + f_equal. apply IH; lia.
    + destruct s as [|c t]; [reflexivity|]. simpl in *.
      do 2 f_equal. apply IH; lia.
  - destruct s as [|c t]; [reflexivity|]. simpl in *.
    f_equal. apply IH; lia.
Qed.

Lemma replaceFrom_Bol_false r repl s :
  replaceFrom (Seq Bol r) repl false s = s.
Proof.
  induction s as [|c t IH]; [reflexivity|].
  cbn [replaceFrom]. unfold exec. cbn [matchK]. now rewrite IH.
Qed.

Lemma replace_Bol_Many p s :
  replace (Seq Bol (Many p)) [] s = dropWhile p s.
Proof.
  unfold replace. destruct s as [|c t]; [reflexivity|].
  cbn [replaceFrom]. rewrite exec_Bol_Many, exec_Many. simpl.
  destruct (p c); [reflexivity|].
  now rewrite replaceFrom_Bol_false.
Qed.

Lemma replaceFrom_Many_Eol p b s :
  replaceFrom (Seq (Many p) Eol) [] b s = dropWhileEnd p s.
Proof.
  revert b. induction s as [|c t IH]; intros b; [reflexivity|].
  cbn [replaceFrom]. rewrite exec_Many_Eol, dropWhileEnd_cons.
  destruct (forallb p (c :: t)); [reflexivity|].
  now rewrite IH.
Qed.

End JsFacts.

(* ================================================================= *)
(** ** Facts about the slug generator *)

Module SlugFacts.

Import Js Slug JsFacts.

Local Open Scope N_scope.

(** Turns boolean facts about code units into arithmetic. *)
Ltac unit_arith :=
  unfold isSlugUnit, notWordOrHyphen, isWord, isSpace, isLower, isUpper,
    isDigit, isHyphen, hyphen, between in *;
  rewrite <- ?not_true_iff_false in *;
  rewrite ?negb_true_iff in *;
  rewrite <- ?not_true_iff_false in *;
  rewrite ?orb_true_iff, ?andb_true_iff, ?N.leb_le, ?N.eqb_eq in *;
  lia.

Lemma slugUnit_not_space c : isSlugUnit c = true -> isSpace c = false.
Proof. intros H. unit_arith. Qed.

Lemma slugUnit_kept c : isSlugUnit c = true -> isWord c || isHyphen c = true.
Proof. intros H. unit_arith. Qed.

Lemma slugUnit_not_upper c : isSlugUnit c = true -> isUpper c = false.
Proof. intros H. unit_arith. Qed.

Lemma kept_lower_slugUnit c :
  isWord c || isHyphen c = true -> isUpper c = false -> isSlugUnit c = true.
Proof. intros H1 H2. unit_arith. Qed.

(** *** The chain of [replace] calls is the worded transformation *)

Lemma hyphenateRuns_true s :
  hyphenateRuns true s = hyphenateRuns false (dropWhile isSpace s).
Proof.
  induction s as [|c t IH]; simpl; [reflexivity|].
  destruct (isSpace c) eqn:E; [exact IH|].
  simpl. now rewrite E.
Qed.

Lemma replaceAllFrom_spaces :
  forall n b s, (List.length s < n)%nat ->
    replaceAllFrom n (Many isSpace) [hyphen] b s = hyphenateRuns false s.
Proof.
  induction n as [|n IH]; intros b s Hn; [lia|].
  cbn [replaceAllFrom]. rewrite exec_Many.
  destruct s as [|c t]; [reflexivity|]. simpl in Hn. simpl hyphenateRuns.
  destruct (isSpace c).
  - pose proof (dropWhile_length isSpace t) as Hl.
    destruct (Nat.ltb_spec (List.length (dropWhile isSpace t))
                (List.length (c :: t))) as [_|Hge]; [|simpl in Hge; lia].
    rewrite IH by lia. now rewrite hyphenateRuns_true.
  - now rewrite IH by lia.
Qed.

Lemma keep_dropWhile s :
  keepWordOrHyphen (dropWhile notWordOrHyphen s) = keepWordOrHyphen s.
Proof.
  induction s as [|c t IH]; simpl; [reflexivity|].
  unfold notWordOrHyphen at 1.
  destruct (isWord c || isHyphen c) eqn:E; simpl; [now rewrite E | exact IH].
Qed.

Lemma replaceAllFrom_nonword :
  forall n b s, (List.length s < n)%nat ->
    replaceAllFrom n (Many notWordOrHyphen) [] b s = keepWordOrHyphen s.
Proof.
  induction n as [|n IH]; intros b s Hn; [lia|].
  cbn [replaceAllFrom]. rewrite exec_Many.
  destruct s as [|c t]; [reflexivity|]. simpl in Hn.
  unfold notWordOrHyphen at 1. simpl keepWordOrHyphen.
  destruct (isWord c || isHyphen c); simpl negb; cbv iota.
  - now rewrite IH by lia.
  - pose proof (dropWhile_length notWordOrHyphen t) as Hl.
    destruct (Nat.ltb_spec (List.length (dropWhile notWordOrHyphen t))
                (List.length (c :: t))) as [_|Hge]; [|simpl in Hge; lia].
    rewrite IH by lia. simpl. apply keep_dropWhile.
Qed.

Lemma collapseHyphens_cons c t :
  collapseHyphens (c :: t) =
  if isHyphen c && startsWithHyphen t then collapseHyphens t
  else c :: collapseHyphens t.
Proof. reflexivity. Qed.

Lemma isHyphen_eq c : isHyphen c = true -> c = hyphen.
Proof. apply N.eqb_eq. Qed.

Lemma collapseHyphens_run t :
  collapseHyphens (hyphen :: t) =
  hyphen :: collapseHyphens (dropWhile isHyphen t).
Proof.
  induction t as [|d t IH]; [reflexivity|].
  rewrite collapseHyphens_cons. cbn [startsWithHyphen dropWhile].
  change (isHyphen hyphen) with true. cbn [andb].
  destruct (isHyphen d) eqn:Ed; [|reflexivity].
  apply isHyphen_eq in Ed. subst d. exact IH.
Qed.

Lemma replaceAllFrom_hyphens :
  forall n b s, (List.length s < n)%nat ->
    replaceAllFrom n (Seq (One isHyphen) (Many isHyphen)) [hyphen] b s =
    collapseHyphens s.
Proof.
  induction n as [|n IH]; intros b s Hn; [lia|].
  cbn [replaceAllFrom]. rewrite exec_One_Many.
  destruct s as [|c [|d t]]; [reflexivity | |].
  - rewrite replaceAllFrom_fuel with (m := 1%nat) by (simpl in *; lia).
    simpl. now rewrite andb_false_r.
  - simpl in Hn. rewrite collapseHyphens_cons. cbn [startsWithHyphen].
    destruct (isHyphen c && isHyphen d) eqn:E.
    + apply andb_true_iff in E. destruct E as [Ec Ed].
      apply isHyphen_eq in Ec, Ed. subst c d.
      pose proof (dropWhile_length isHyphen t) as Hl.
      destruct (Nat.ltb_spec (List.length (dropWhile isHyphen t))
                  (List.length (hyphen :: hyphen :: t))) as [_|Hge];
        [|simpl in Hge; lia].
      rewrite IH by lia. now rewrite collapseHyphens_run.
    + now rewrite IH by (simpl; lia).
Qed.

(** The whole chain. *)
Lemma chain_pipeline lower s :
  replace (Seq (Many isHyphen) Eol) []
    (replace (Seq Bol (Many isHyphen)) []
       (replaceAll (Seq (One isHyphen) (Many isHyphen)) [hyphen]
          (replaceAll (Many notWordOrHyphen) []
             (replaceAll (Many isSpace) [hyphen] (lower (trim s)))))) =
  pipeline lower s.
Proof.
  unfold pipeline, replaceAll, stripTrailing, stripLeading.
  rewrite replaceAllFrom_spaces by lia.
  rewrite replaceAllFrom_nonword by lia.
  rewrite replaceAllFrom_hyphens by lia.
  rewrite replace_Bol_Many. unfold replace.
  now rewrite replaceFrom_Many_Eol.
Qed.

Lemma slugifyWith_pipeline lower v :
  slugifyWith lower v =
  match v with
  | JString (c :: t) => pipeline lower (c :: t)
  | JTruthy r => pipeline lower r
  | _ => []
  end.
Proof.
  destruct v as [| | | |[|c t]|r]; try reflexivity;
    unfold slugifyWith; cbn [truthy negb toString lit];
    apply chain_pipeline.
Qed.

(** *** Each step on its own *)

Lemma hyphenateRuns_incl b s x :
  In x (hyphenateRuns b s) -> x = hyphen \/ In x s.
Proof.
  revert b. induction s as [|c t IH]; intros b; simpl; [tauto|].
  destruct (isSpace c); [destruct b|]; simpl; intros H.
  - destruct (IH _ H); tauto.
  - destruct H as [H|H]; [now left | destruct (IH _ H); tauto].
  - destruct H as [H|H]; [tauto | destruct (IH _ H); tauto].
Qed.

Lemma hyphenateRuns_none b s :
  forallb isSlugUnit s = true -> hyphenateRuns b s = s.
Proof.
  revert b. induction s as [|c t IH]; intros b; simpl; [reflexivity|].
  intros H. apply andb_true_iff in H. destruct H as [Hc Ht].
  now rewrite (slugUnit_not_space _ Hc), IH.
Qed.

Lemma keepWordOrHyphen_all s :
  forallb isSlugUnit s = true -> keepWordOrHyphen s = s.
Proof.
  induction s as [|c t IH]; simpl; [reflexivity|].
  intros H. apply andb_true_iff in H. destruct H as [Hc Ht].
  rewrite (slugUnit_kept _ Hc). f_equal. now apply IH.
Qed.

Lemma collapseHyphens_incl s x : In x (collapseHyphens s) -> In x s.
Proof.
  induction s as [|c t IH]; [tauto|].
  rewrite collapseHyphens_cons.
  destruct (isHyphen c && startsWithHyphen t); simpl; tauto.
Qed.

Lemma collapseHyphens_starts s :
  startsWithHyphen (collapseHyphens s) = startsWithHyphen s.
Proof.
  induction s as [|c t IH]; [reflexivity|].
  rewrite collapseHyphens_cons.
  destruct (isHyphen c) eqn:Ec; [|reflexivity].
  destruct (startsWithHyphen t) eqn:Et; simpl; [|reflexivity].
  now rewrite IH, Ec.
Qed.

Lemma collapseHyphens_noDouble s : noDoubleHyphen (collapseHyphens s) = true.
Proof.
  induction s as [|c t IH]; [reflexivity|].
  rewrite collapseHyphens_cons.
  destruct (isHyphen c && startsWithHyphen t) eqn:E; [exact IH|].
  cbn [noDoubleHyphen]. now rewrite collapseHyphens_starts, E, IH.
Qed.

Lemma collapseHyphens_fixed s :
  noDoubleHyphen s = true -> collapseHyphens s = s.
Proof.
  induction s as [|c t IH]; [reflexivity|].
  rewrite collapseHyphens_cons. cbn [noDoubleHyphen]. intros H.
  apply andb_true_iff in H. destruct H as [Hc Ht].
  apply negb_true_iff in Hc. now rewrite Hc, IH.
Qed.

Lemma noDoubleHyphen_dropWhile p s :
  noDoubleHyphen s = true -> noDoubleHyphen (dropWhile p s) = true.
Proof.
  induction s as [|c t IH]; [reflexivity|].
  intros H. cbn [dropWhile]. destruct (p c); [|exact H].
  apply IH. cbn [noDoubleHyphen] in H. now apply andb_true_iff in H.
Qed.

Lemma startsWithHyphen_dropWhileEnd p s :
  startsWithHyphen (dropWhileEnd p s) = true -> startsWithHyphen s = true.
Proof.
  pose proof (dropWhileEnd_first p s) as H.
  destruct (dropWhileEnd p s) as [|c t]; [discriminate|].
  destruct H as [t' ->]. exact (fun E => E).
Qed.

Lemma noDoubleHyphen_dropWhileEnd p s :
  noDoubleHyphen s = true -> noDoubleHyphen (dropWhileEnd p s) = true.
Proof.
  induction s as [|c t IH]; [reflexivity|].
  intros H. rewrite dropWhileEnd_cons.
  destruct (forallb p (c :: t)); [reflexivity|].
  cbn [noDoubleHyphen] in *. apply andb_true_iff in H. destruct H as [Hc Ht].
  rewrite IH by exact Ht. rewrite andb_true_r.
  destruct (isHyphen c); [|reflexivity]. simpl in *.
  destruct (startsWithHyphen (dropWhileEnd p t)) eqn:E; [|reflexivity].
  apply startsWithHyphen_dropWhileEnd in E. now rewrite E in Hc.
Qed.

Lemma startsWithHyphen_stripLeading s :
  startsWithHyphen (stripLeading s) = false.
Proof.
  unfold stripLeading. pose proof (dropWhile_head isHyphen s) as H.
  now destruct (dropWhile isHyphen s).
Qed.

Lemma endsWithHyphen_stripTrailing s :
  endsWithHyphen (stripTrailing s) = false.
Proof.
  unfold endsWithHyphen, stripTrailing, dropWhileEnd.
  rewrite rev_involutive. apply (startsWithHyphen_stripLeading (rev s)).
Qed.

Lemma dropWhile_space_slug s :
  forallb isSlugUnit s = true -> dropWhile isSpace s = s.
Proof.
  intros H. apply dropWhile_keep. destruct s as [|c t]; [exact I|].
  simpl in H. apply andb_true_iff in H. now apply slugUnit_not_space.
Qed.

Lemma trim_slug s : forallb isSlugUnit s = true -> trim s = s.
Proof.
  intros H. unfold trim. rewrite dropWhile_space_slug by exact H.
  apply dropWhileEnd_keep. rewrite <- forallb_rev in H.
  destruct (rev s) as [|c t]; [exact I|].
  simpl in H. apply andb_true_iff in H. now apply slugUnit_not_space.
Qed.

(** *** Shape and idempotence, for any lowering function

    Two properties of the built-in are all that the results need: its
    result has no Latin capital, and it leaves a string of lower-case
    letters, digits, underscores and hyphens as it is. *)
Section Generic.
Variable lower : jsstring -> jsstring.
Hypothesis lower_no_upper :
  forall s c, In c (lower s) -> isUpper c = false.
Hypothesis lower_fixes_slugs :
  forall s, forallb isSlugUnit s = true -> lower s = s.

Lemma pipeline_wellFormed s : wellFormedSlug (pipeline lower s) = true.
Proof.
  unfold wellFormedSlug, pipeline.
  rewrite endsWithHyphen_stripTrailing.
  set (k := keepWordOrHyphen (hyphenateRuns false (lower (trim s)))).
  assert (Hs : startsWithHyphen
                 (stripTrailing (stripLeading (collapseHyphens k))) = false).
  { destruct (startsWithHyphen _) eqn:E; [|reflexivity].
    apply startsWithHyphen_dropWhileEnd in E.
    now rewrite startsWithHyphen_stripLeading in E. }
  rewrite Hs. simpl. rewrite !andb_true_r. apply andb_true_iff. split.
  - apply forallb_forall. intros x Hx.
    apply dropWhileEnd_incl, dropWhile_incl, collapseHyphens_incl in Hx.
    apply filter_In in Hx. destruct Hx as [Hx Hk].
    apply kept_lower_slugUnit; [exact Hk|].
    apply hyphenateRuns_incl in Hx. destruct Hx as [->|Hx]; [reflexivity|].
    now apply lower_no_upper in Hx.
  - apply noDoubleHyphen_dropWhileEnd, noDoubleHyphen_dropWhile,
      collapseHyphens_noDouble.
Qed.

Lemma pipeline_fixed s : wellFormedSlug s = true -> pipeline lower s = s.
Proof.
  unfold wellFormedSlug. intros H.
  apply andb_true_iff in H. destruct H as [H He].
  apply andb_true_iff in H. destruct H as [H Hs].
  apply andb_true_iff in H. destruct H as [Hu Hd].
  apply negb_true_iff in He, Hs.
  unfold pipeline. rewrite trim_slug, lower_fixes_slugs by exact Hu.
  rewrite hyphenateRuns_none, keepWordOrHyphen_all by exact Hu.
  rewrite collapseHyphens_fixed by exact Hd.
  unfold stripLeading, stripTrailing.
  rewrite dropWhile_keep.
  - apply dropWhileEnd_keep. unfold endsWithHyphen in He.
    destruct (rev s); [exact I | exact He].
  - destruct s; [exact I | exact Hs].
Qed.

Lemma slugifyWith_wellFormed v : wellFormedSlug (slugifyWith lower v) = true.
Proof.
  rewrite slugifyWith_pipeline.
  destruct v as [| | | |[|c t]|r]; try reflexivity;
    apply pipeline_wellFormed.
Qed.

Lemma slugifyWith_idempotent v :
  slugifyWith lower (JString (slugifyWith lower v)) = slugifyWith lower v.
Proof.
  pose proof (slugifyWith_wellFormed v) as H.
  rewrite (slugifyWith_pipeline lower (JString _)).
  destruct (slugifyWith lower v) as [|c t]; [reflexivity|].
  now apply pipeline_fixed.
Qed.
End Generic.

(** *** The lowering function of the model has the two properties *)

Lemma toLowerCase_no_upper s c : In c (toLowerCase s) -> isUpper c = false.
Proof.
  unfold toLowerCase. intros H. apply in_flat_map in H.
  destruct H as [x [_ H]]. unfold lowerUnit in H.
  destruct (isUpper x) eqn:Eu.
  - destruct H as [<-|[]]. unit_arith.
  - destruct (N.eqb_spec x 304).
    + destruct H as [<-|[<-|[]]]; reflexivity.
    + destruct (N.eqb_spec x 8490).
      * destruct H as [<-|[]]; reflexivity.
      * destruct H as [<-|[]]; exact Eu.
Qed.

Lemma lowerUnit_slug c : isSlugUnit c = true -> lowerUnit c = [c].
Proof.
  intros H. unfold lowerUnit. rewrite (slugUnit_not_upper _ H).
  destruct (N.eqb_spec c 304); [subst; discriminate|].
  destruct (N.eqb_spec c 8490); [subst; discriminate|]. reflexivity.
Qed.

Lemma toLowerCase_fixes_slugs s :
  forallb isSlugUnit s = true -> toLowerCase s = s.
Proof.
  induction s as [|c t IH]; simpl; [reflexivity|].
  intros H. apply andb_true_iff in H. destruct H as [Hc Ht].
  unfold toLowerCase in *. now rewrite (lowerUnit_slug _ Hc), IH.
Qed.

Lemma slugify_wellFormed v : wellFormedSlug (slugify v) = true.
Proof. apply slugifyWith_wellFormed, toLowerCase_no_upper. Qed.

(** *** Reading [wellFormedSlug] *)

Lemma noDoubleHyphen_app pre post :
  noDoubleHyphen (pre ++ hyphen :: hyphen :: post) = false.
Proof.
  induction pre as [|c t IH]; [reflexivity|].
  simpl app. cbn [noDoubleHyphen]. rewrite IH. apply andb_false_r.
Qed.

Lemma endsWithHyphen_snoc s : endsWithHyphen (s ++ [hyphen]) = true.
Proof. unfold endsWithHyphen. now rewrite rev_app_distr. Qed.

End SlugFacts.

(* ================================================================= *)
(** ** Facts about the server *)

Module ApiFacts.

Import Js Slug Api JsFacts SlugFacts.

Local Open Scope string_scope.
Local Open Scope list_scope.

(** *** The statements *)

Lemma table_with_table t rows d : table t (with_table t rows d) = rows.
Proof. now destruct t. Qed.

Lemma table_with_other t rows d :
  table (other t) (with_table t rows d) = table (other t) d.
Proof. now destruct t. Qed.

Lemma with_table_same t d : with_table t (table t d) d = d.
Proof. now destruct t, d. Qed.

Lemma insertDesc_In r l x : In x (insertDesc r l) <-> x = r \/ In x l.
Proof.
  induction l as [|y t IH]; simpl; [intuition congruence|].
  destruct (created_date y <? created_date r)%Z; simpl; [intuition congruence|].
  rewrite IH. intuition congruence.
Qed.

Lemma orderDesc_In l x : In x (orderDesc l) <-> In x l.
Proof.
  induction l as [|y t IH]; simpl; [tauto|].
  rewrite insertDesc_In, IH. intuition congruence.
Qed.

Lemma hasSlug_true s r : hasSlug s r = true <-> slug r = s.
Proof. apply jsstring_eqb_eq. Qed.

Lemma hasSlug_false s r : hasSlug s r = false <-> slug r <> s.
Proof. apply jsstring_eqb_neq. Qed.

(** An [UPDATE] that matches no row changes no row. *)
Lemma update_no_match s ti co rows :
  existsb (hasSlug s) rows = false ->
  map (fun r => if hasSlug s r then setFields ti co r else r) rows = rows
  /\ filter (hasSlug s) rows = [].
Proof.
  induction rows as [|r t IH]; simpl; [tauto|].
  intros H. apply orb_false_iff in H. destruct H as [Hr Ht].
  rewrite Hr. destruct (IH Ht) as [-> ->]. tauto.
Qed.

(** An [UPDATE] leaves the columns [slug] and [created_date] alone. *)
Lemma update_keeps_slugs s ti co rows :
  map slug (map (fun r => if hasSlug s r then setFields ti co r else r) rows)
  = map slug rows.
Proof.
  rewrite map_map. apply map_ext. intros r. now destruct (hasSlug s r).
Qed.

Lemma update_keeps_dates s ti co rows :
  map created_date
      (map (fun r => if hasSlug s r then setFields ti co r else r) rows)
  = map created_date rows.
Proof.
  rewrite map_map. apply map_ext. intros r. now destruct (hasSlug s r).
Qed.

Lemma no_row_with_slug s rows :
  (forall r, In r rows -> slug r <> s) <-> existsb (hasSlug s) rows = false.
Proof.
  induction rows as [|r t IH]; simpl; [tauto|].
  rewrite orb_false_iff, <- IH, hasSlug_false. split.
  - intros H. split; [apply H; now left | intros x Hx; apply H; now right].
  - intros [Hr Ht] x [<-|Hx]; auto.
Qed.

Lemma no_match_length s rows :
  (List.length (filter (hasSlug s) rows) =? 0)%nat
  = negb (existsb (hasSlug s) rows).
Proof.
  induction rows as [|r t IH]; simpl; [reflexivity|].
  now destruct (hasSlug s r).
Qed.

Lemma In_deleted s rows r :
  In r (filter (fun x => negb (hasSlug s x)) rows) <->
  In r rows /\ slug r <> s.
Proof. now rewrite filter_In, negb_true_iff, hasSlug_false. Qed.

(** *** The driver *)

Lemma query_run cl q f w :
  isLive (conn cl) w = true -> query_fault f = None ->
  query (Some cl) q f w =
  (queried (conn cl) q (fst (run q (db w))) w, inr (snd (run q (db w)))).
Proof.
  intros Hl Hf. unfold query. rewrite Hl, Hf.
  now destruct (run q (db w)).
Qed.

Lemma query_throws cl q f w e :
  isLive (conn cl) w = true -> query_fault f = Some e ->
  query (Some cl) q f w = (queried (conn cl) q (db w) w, inl e).
Proof. intros Hl Hf. unfold query. now rewrite Hl, Hf. Qed.

Lemma isLive_opening w : isLive (opened w) (opening w) = true.
Proof. unfold isLive, opening. simpl. now rewrite Nat.eqb_refl. Qed.

Lemma close_fresh id l :
  Forall (fun i => i < id) l ->
  filter (fun i => negb (Nat.eqb id i)) (id :: l) = l.
Proof.
  intros H. simpl. rewrite Nat.eqb_refl. simpl.
  induction H as [|x t Hx Ht IH]; simpl; [reflexivity|].
  destruct (Nat.eqb_spec id x); [lia|]. simpl. now rewrite IH.
Qed.

(** *** The middleware *)

Lemma fetch_connected req f w :
  connect_fault f = None ->
  fetch req f w =
  match router (target req) (handler_context req {| conn := opened w |}) f
          (opening w) with
  | (w2, inr r) => (closing (opened w) w2, inr r)
  | (w2, inl e) => (w2, inl e)
  end.
Proof.
  intros Hc. unfold fetch, middleware, bind, connectToDB. rewrite Hc.
  unfold set_dbClient, handler_context. simpl.
  now destruct (router _ _ f (opening w)) as [w2 [e|r]].
Qed.

Lemma fetch_refused req f w e :
  connect_fault f = Some e -> fetch req f w = (w, inl e).
Proof.
  intros Hc. unfold fetch, middleware, bind, connectToDB. now rewrite Hc.
Qed.

(** No handler throws: each catches what its statement or its body
    throws.  A handler opens and closes nothing, and asks the driver
    nothing but statements on the client of its context. *)
Lemma router_total r c cl f w :
  dbClient c = Some cl ->
  exists resp w',
    router r c f w = (w', inr resp)
    /\ live w' = live w /\ opened w' = opened w
    /\ exists evs,
         events w' = events w ++ evs
         /\ Forall (fun ev => exists q, ev = Queried (conn cl) q) evs.
Proof.
  intros Hc.
  destruct r as [t|t|t s|t s|];
    unfold router, list_handler, create_handler, update_handler,
      delete_handler, try_catch, bind, req_json, destructure, query,
      call_slugify, console_error, ret, throw, queried, logged;
    rewrite ?Hc; cbn beta iota;
    repeat match goal with
      | |- context [req_body c] => destruct (req_body c)
      | |- context [asJs ?x] => destruct (asJs x)
      | |- context [isLive ?i ?x] => destruct (isLive i x)
      | |- context [query_fault f] => destruct (query_fault f)
      | |- context [run ?q ?d] => destruct (run q d)
      | |- context [(List.length ?l =? 0)%nat] =>
          destruct (List.length l =? 0)%nat
      | _ => progress cbn beta iota
      end;
    (do 2 eexists; split; [reflexivity|]; cbn [live opened events];
     split; [reflexivity|]; split; [reflexivity|];
     first [ exists []; split; [now rewrite app_nil_r | constructor]
           | eexists; split;
             [ reflexivity
             | repeat constructor; eexists; reflexivity ] ]).
Qed.

(** *** The handlers, statement by statement *)

Section Handlers.
Variables (t : resource) (c : Context) (cl : Client).
Variables (f : faults) (w : world).
Hypothesis has_client : dbClient c = Some cl.
Hypothesis client_live : isLive (conn cl) w = true.

Lemma list_handler_run :
  query_fault f = None ->
  list_handler t c f w =
  (queried (conn cl) (SelectAll t) (db w) w,
   inr (Json (Rows (orderDesc (table t (db w)))) 200)).
Proof.
  intros Hq. unfold list_handler, try_catch, bind.
  now rewrite has_client, query_run.
Qed.

Lemma list_handler_throws e :
  query_fault f = Some e ->
  list_handler t c f w =
  (logged (lit "Error:") e (queried (conn cl) (SelectAll t) (db w) w),
   inr (StatusOnly 500)).
Proof.
  intros Hq. unfold list_handler, try_catch, bind.
  rewrite has_client. now rewrite query_throws with (e := e) by assumption.
Qed.

Lemma delete_handler_run :
  query_fault f = None ->
  let q := DeleteRows t (param_slug c) in
  delete_handler t c f w =
  (queried (conn cl) q (fst (run q (db w))) w,
   inr (if (List.length (snd (run q (db w))) =? 0)%nat
        then Json (Fields [("error", lit (Noun t ++ " not found"))]) 404
        else Json (Fields [("message",
                            lit (Noun t ++ " with slug ") ++ param_slug c
                            ++ lit " deleted successfully")]) 201)).
Proof.
  intros Hq q. unfold delete_handler, try_catch, bind.
  rewrite has_client, query_run by assumption. fold q.
  now destruct (List.length (snd (run q (db w))) =? 0)%nat.
Qed.

Lemma delete_handler_throws e :
  query_fault f = Some e ->
  let q := DeleteRows t (param_slug c) in
  delete_handler t c f w =
  (logged (lit ("Error deleting " ++ noun t ++ " ") ++ param_slug c ++ lit ":")
     e (queried (conn cl) q (db w) w),
   inr (Json (Fields [("error", lit ("Failed to delete " ++ noun t));
                      ("message", message e)]) 500)).
Proof.
  intros Hq q. unfold delete_handler, try_catch, bind.
  rewrite has_client. now rewrite query_throws with (e := e) by assumption.
Qed.

Variables ti co : value.
Hypothesis parsed : req_body c = ParsedObject ti co.

Lemma create_handler_run v :
  asJs ti = inr v ->
  query_fault f = None ->
  let q := InsertRow t (slugify v) ti co in
  create_handler t c f w =
  (queried (conn cl) q (fst (run q (db w))) w,
   inr (Json (FirstRow (nth_error (snd (run q (db w))) 0)) 201)).
Proof.
  intros Hv Hq q.
  unfold create_handler, try_catch, bind, req_json, call_slugify.
  rewrite parsed, has_client. cbn [destructure ret]. rewrite Hv. cbn [ret].
  now rewrite query_run.
Qed.

Lemma create_handler_throws v e :
  asJs ti = inr v ->
  query_fault f = Some e ->
  let q := InsertRow t (slugify v) ti co in
  create_handler t c f w =
  (logged (lit ("Error creating " ++ noun t ++ ":")) e
     (queried (conn cl) q (db w) w),
   inr (StatusOnly 500)).
Proof.
  intros Hv Hq q.
  unfold create_handler, try_catch, bind, req_json, call_slugify.
  rewrite parsed, has_client. cbn [destructure ret]. rewrite Hv. cbn [ret].
  now rewrite query_throws with (e := e) by assumption.
Qed.

Lemma create_handler_unprintable e :
  asJs ti = inl e ->
  create_handler t c f w =
  (logged (lit ("Error creating " ++ noun t ++ ":")) e w,
   inr (StatusOnly 500)).
Proof.
  intros Hv.
  unfold create_handler, try_catch, bind, req_json, call_slugify.
  rewrite parsed. cbn [destructure ret]. now rewrite Hv.
Qed.

Lemma update_handler_run :
  query_fault f = None ->
  let q := UpdateRows t ti co (param_slug c) in
  update_handler t c f w =
  (queried (conn cl) q (fst (run q (db w))) w,
   inr (if (List.length (snd (run q (db w))) =? 0)%nat
        then Json (Fields [("error", lit (Noun t ++ " not found"))]) 404
        else Json (FirstRow (nth_error (snd (run q (db w))) 0)) 201)).
Proof.
  intros Hq q. unfold update_handler, try_catch, bind, req_json.
  rewrite parsed, has_client. cbn [destructure ret].
  rewrite query_run by assumption. fold q.
  now destruct (List.length (snd (run q (db w))) =? 0)%nat.
Qed.

Lemma update_handler_throws e :
  query_fault f = Some e ->
  let q := UpdateRows t ti co (param_slug c) in
  update_handler t c f w =
  (logged (lit ("Error updating " ++ noun t ++ " ") ++ param_slug c ++ lit ":")
     e (queried (conn cl) q (db w) w),
   inr (Json (Fields [("error", lit ("Failed to update " ++ noun t));
                      ("message", message e)]) 500)).
Proof.
  intros Hq q. unfold update_handler, try_catch, bind, req_json.
  rewrite parsed, has_client. cbn [destructure ret].
  now rewrite query_throws with (e := e) by assumption.
Qed.
End Handlers.

(** *** Whole requests *)

Section Requests.
Variables (f : faults) (w : world).
Hypothesis connects : connect_fault f = None.

Let id := opened w.

Lemma fetch_list_run t b :
  query_fault f = None ->
  fetch {| target := GetAll t; sent := b |} f w =
  (closing id (queried id (SelectAll t) (db w) (opening w)),
   inr (Json (Rows (orderDesc (table t (db w)))) 200)).
Proof.
  intros Hq. rewrite fetch_connected by exact connects. cbn [target router].
  rewrite list_handler_run with (cl := {| conn := id |});
    try reflexivity; try assumption; apply isLive_opening.
Qed.

Lemma fetch_list_throws t b e :
  query_fault f = Some e ->
  fetch {| target := GetAll t; sent := b |} f w =
  (closing id (logged (lit "Error:") e
                 (queried id (SelectAll t) (db w) (opening w))),
   inr (StatusOnly 500)).
Proof.
  intros Hq. rewrite fetch_connected by exact connects. cbn [target router].
  rewrite list_handler_throws with (cl := {| conn := id |}) (e := e);
    try reflexivity; try assumption; apply isLive_opening.
Qed.

Lemma fetch_delete_run t s b :
  query_fault f = None ->
  let q := DeleteRows t s in
  fetch {| target := Delete t s; sent := b |} f w =
  (closing id (queried id q (fst (run q (db w))) (opening w)),
   inr (if (List.length (snd (run q (db w))) =? 0)%nat
        then Json (Fields [("error", lit (Noun t ++ " not found"))]) 404
        else Json (Fields [("message",
                            lit (Noun t ++ " with slug ") ++ s
                            ++ lit " deleted successfully")]) 201)).
Proof.
  intros Hq q. rewrite fetch_connected by exact connects.
  cbn [target router].
  rewrite delete_handler_run with (cl := {| conn := id |});
    try reflexivity; try assumption; apply isLive_opening.
Qed.

Lemma fetch_delete_throws t s b e :
  query_fault f = Some e ->
  snd (fetch {| target := Delete t s; sent := b |} f w) =
  inr (Json (Fields [("error", lit ("Failed to delete " ++ noun t));
                     ("message", message e)]) 500).
Proof.
  intros Hq. rewrite fetch_connected by exact connects.
  cbn [target router].
  rewrite delete_handler_throws with (cl := {| conn := id |}) (e := e);
    try reflexivity; try assumption; apply isLive_opening.
Qed.

Lemma fetch_create_run t ti co v :
  asJs ti = inr v ->
  query_fault f = None ->
  let q := InsertRow t (slugify v) ti co in
  fetch {| target := Post t; sent := ParsedObject ti co |} f w =
  (closing id (queried id q (fst (run q (db w))) (opening w)),
   inr (Json (FirstRow (nth_error (snd (run q (db w))) 0)) 201)).
Proof.
  intros Hv Hq q. rewrite fetch_connected by exact connects.
  cbn [target router].
  rewrite create_handler_run
    with (cl := {| conn := id |}) (ti := ti) (co := co) (v := v);
    try reflexivity; try assumption; apply isLive_opening.
Qed.

Lemma fetch_create_throws t ti co v e :
  asJs ti = inr v ->
  query_fault f = Some e ->
  let q := InsertRow t (slugify v) ti co in
  fetch {| target := Post t; sent := ParsedObject ti co |} f w =
  (closing id (logged (lit ("Error creating " ++ noun t ++ ":")) e
                 (queried id q (db w) (opening w))),
   inr (StatusOnly 500)).
Proof.
  intros Hv Hq q. rewrite fetch_connected by exact connects.
  cbn [target router].
  rewrite create_handler_throws
    with (cl := {| conn := id |}) (ti := ti) (co := co) (v := v) (e := e);
    try reflexivity; try assumption; apply isLive_opening.
Qed.

Lemma fetch_create_unprintable t ti co e :
  asJs ti = inl e ->
  fetch {| target := Post t; sent := ParsedObject ti co |} f w =
  (closing id (logged (lit ("Error creating " ++ noun t ++ ":")) e
                 (opening w)),
   inr (StatusOnly 500)).
Proof.
  intros Hv. rewrite fetch_connected by exact connects.
  cbn [target router].
  rewrite create_handler_unprintable
    with (ti := ti) (co := co) (e := e);
    try reflexivity; assumption.
Qed.

Lemma fetch_update_run t s ti co :
  query_fault f = None ->
  let q := UpdateRows t ti co s in
  fetch {| target := Put t s; sent := ParsedObject ti co |} f w =
  (closing id (queried id q (fst (run q (db w))) (opening w)),
   inr (if (List.length (snd (run q (db w))) =? 0)%nat
        then Json (Fields [("error", lit (Noun t ++ " not found"))]) 404
        else Json (FirstRow (nth_error (snd (run q (db w))) 0)) 201)).
Proof.
  intros Hq q. rewrite fetch_connected by exact connects.
  cbn [target router].
  rewrite update_handler_run
    with (cl := {| conn := id |}) (ti := ti) (co := co);
    try reflexivity; try assumption; apply isLive_opening.
Qed.

Lemma fetch_update_throws t s ti co e :
  query_fault f = Some e ->
  snd (fetch {| target := Put t s; sent := ParsedObject ti co |} f w) =
  inr (Json (Fields [("error", lit ("Failed to update " ++ noun t));
                     ("message", message e)]) 500).
Proof.
  intros Hq. rewrite fetch_connected by exact connects.
  cbn [target router].
  rewrite update_handler_throws
    with (cl := {| conn := id |}) (ti := ti) (co := co) (e := e);
    try reflexivity; try assumption; apply isLive_opening.
Qed.
Lemma fetch_update_run_throws_db t s ti co e :
  query_fault f = Some e ->
  db (fst (fetch {| target := Put t s; sent := ParsedObject ti co |} f w))
  = db w.
Proof.
  intros Hq. rewrite fetch_connected by exact connects.
  cbn [target router].
  rewrite update_handler_throws
    with (cl := {| conn := id |}) (ti := ti) (co := co) (e := e);
    try reflexivity; try assumption; apply isLive_opening.
Qed.
End Requests.

(** Whatever the body and the faults, a PUT leaves the tables as they
    were or as its [UPDATE] leaves them. *)
Lemma fetch_update_db t s b f w :
  db (fst (fetch {| target := Put t s; sent := b |} f w)) = db w
  \/ exists ti co,
       b = ParsedObject ti co /\ connect_fault f = None
       /\ query_fault f = None
       /\ db (fst (fetch {| target := Put t s; sent := b |} f w)) =
          fst (run (UpdateRows t ti co s) (db w)).
Proof.
  destruct (connect_fault f) as [e|] eqn:Hc.
  - left. now rewrite (@fetch_refused _ f w e Hc).
  - destruct (query_fault f) as [e|] eqn:Hq, b as [e'|  |ti co].
    6: { right. exists ti, co. repeat split.
         now rewrite (@fetch_update_run f w Hc t s ti co Hq). }
    3: { left. now rewrite (@fetch_update_run_throws_db f w Hc t s ti co e Hq). }
    all: left; rewrite fetch_connected by exact Hc; reflexivity.
Qed.

Lemma run_update_slugs t t' ti co s d :
  map slug (table t' (fst (run (UpdateRows t ti co s) d)))
  = map slug (table t' d).
Proof.
  cbn [run fst]. destruct t, t'; cbn [with_table table posts drafts];
    try reflexivity; apply update_keeps_slugs.
Qed.

Lemma run_update_dates t t' ti co s d :
  map created_date (table t' (fst (run (UpdateRows t ti co s) d)))
  = map created_date (table t' d).
Proof.
  cbn [run fst]. destruct t, t'; cbn [with_table table posts drafts];
    try reflexivity; apply update_keeps_dates.
Qed.

(** *** What a response can tell about a fault *)

Lemma router_message_only r c cl f f' w :
  dbClient c = Some cl ->
  option_map message (query_fault f) = option_map message (query_fault f') ->
  snd (router r c f w) = snd (router r c f' w).
Proof.
  intros Hc Hm.
  destruct (query_fault f) as [e|] eqn:Hq, (query_fault f') as [e'|] eqn:Hq';
    simpl in Hm; try discriminate;
    [injection Hm as Hm|];
    destruct r as [t|t|t s|t s|];
    unfold router, list_handler, create_handler, update_handler,
      delete_handler, try_catch, bind, req_json, destructure, query,
      call_slugify, console_error, ret, throw;
    rewrite ?Hc; cbn beta iota;
    repeat match goal with
      | |- context [req_body c] => destruct (req_body c)
      | |- context [asJs ?x] => destruct (asJs x)
      | |- context [isLive ?i ?x] => destruct (isLive i x)
      | _ => progress rewrite ?Hq, ?Hq'
      | |- context [run ?q ?d] => destruct (run q d)
      | |- context [(List.length ?l =? 0)%nat] =>
          destruct (List.length l =? 0)%nat
      | _ => progress cbn beta iota
      end;
    cbn [snd]; rewrite ?Hm; reflexivity.
Qed.

Lemma fetch_message_only req f f' w :
  connect_fault f = None -> connect_fault f' = None ->
  option_map message (query_fault f) = option_map message (query_fault f') ->
  snd (fetch req f w) = snd (fetch req f' w).
Proof.
  intros Hc Hc' Hm. rewrite !fetch_connected by assumption.
  pose proof (@router_message_only (target req)
                (handler_context req {| conn := opened w |})
                {| conn := opened w |} f f' (opening w) eq_refl Hm) as H.
  destruct (router _ _ f (opening w)) as [w1 [e1|r1]],
           (router _ _ f' (opening w)) as [w2 [e2|r2]];
    simpl in *; congruence.
Qed.

End ApiFacts.

(* ================================================================= *)
(** ** The properties of the specification *)

Module Properties.

Import Js Slug Api App JsFacts SlugFacts ApiFacts.

Local Open Scope string_scope.
Local Open Scope list_scope.

(** *** Slug generator *)

(** C2.  [slugify] is the transformation of section 4.1: the empty
    string for a falsy input (an absent value, [null], [false], zero, the
    empty string), and otherwise, in this order, trim, lower case, one
    hyphen for each run of white space, removal of what is neither a word
    character nor a hyphen, one hyphen for each run of hyphens, removal of
    the leading and of the trailing hyphens; the result is made of lower
    case letters, digits, underscores and single inner hyphens. *)
Theorem slugify_meets_spec :
  (forall str, slugify str = slugify_spec str)
  /\ (forall s,
        slugify_spec (JString s) =
        match s with
        | [] => lit ""
        | _ :: _ =>
            stripTrailing
              (stripLeading
                 (collapseHyphens
                    (keepWordOrHyphen
                       (hyphenateRuns false (toLowerCase (trim s))))))
        end)
  /\ slugify (JString (lit "")) = lit ""
  /\ slugify JNull = lit ""
  /\ slugify JUndefined = lit ""
  /\ slugify JFalse = lit ""
  /\ slugify JZero = lit ""
  /\ (forall str, wellFormedSlug (slugify str) = true).
Proof.
  split; [|split].
  - intros str. unfold slugify. rewrite slugifyWith_pipeline.
    now destruct str as [| | | |[|c t]|r].
  - now intros [|c t].
  - repeat split; try reflexivity. exact slugify_wellFormed.
Qed.

(** C6.  The four examples of section 8. *)
Theorem slugify_examples :
  slugify (JString (lit "")) = lit ""
  /\ slugify (JString (lit "  Hello World!  ")) = lit "hello-world"
  /\ slugify (JString (lit "A--B")) = lit "a-b"
  /\ slugify (JString (lit "-lead-trail-")) = lit "lead-trail".
Proof. repeat split; vm_compute; reflexivity. Qed.

(** C7.  [slugify] is idempotent: on every string [x],
    [slugify(slugify(x))] is [slugify(x)]. *)
Theorem slugify_idempotent (x : jsstring) :
  slugify (JString (slugify (JString x))) = slugify (JString x).
Proof.
  unfold slugify. apply slugifyWith_idempotent.
  - exact toLowerCase_no_upper.
  - exact toLowerCase_fixes_slugs.
Qed.

(** C9.  Whatever the input, the result of [slugify] has no white space
    and no upper case letter, it has nothing but lower case letters,
    digits, underscores and hyphens, it has no two hyphens in a row, and
    it neither begins nor ends with a hyphen. *)
Theorem slugify_shape (str : jsvalue) :
  (forall c, In c (slugify str) ->
     isSpace c = false /\ isUpper c = false
     /\ ((97 <= c <= 122) \/ (48 <= c <= 57) \/ c = 95 \/ c = 45)%N)
  /\ (forall front back, slugify str <> front ++ [hyphen; hyphen] ++ back)
  /\ (forall back, slugify str <> hyphen :: back)
  /\ (forall front, slugify str <> front ++ [hyphen]).
Proof.
  pose proof (slugify_wellFormed str) as H. unfold wellFormedSlug in H.
  apply andb_true_iff in H. destruct H as [H He].
  apply andb_true_iff in H. destruct H as [H Hs].
  apply andb_true_iff in H. destruct H as [Hu Hd].
  apply negb_true_iff in He, Hs.
  split; [|split; [|split]].
  - intros c Hc. rewrite forallb_forall in Hu. specialize (Hu c Hc).
    split; [now apply slugUnit_not_space|].
    split; [now apply slugUnit_not_upper|].
    clear - Hu.
    unfold isSlugUnit, isLower, isDigit, isHyphen, hyphen, between in Hu.
    rewrite ?orb_true_iff, ?andb_true_iff, ?N.leb_le, ?N.eqb_eq in Hu. lia.
  - intros front back E. rewrite E in Hd. simpl app in Hd.
    now rewrite noDoubleHyphen_app in Hd.
  - intros back E. now rewrite E in Hs.
  - intros front E. rewrite E in He. now rewrite endsWithHyphen_snoc in He.
Qed.

(** *** Connection lifecycle *)

(** What the database middleware does around every request that
    reaches it. *)
Lemma chain_lifecycle (req : request) (f : faults) (w : world) :
  wf w ->
  exists w' out,
    fetch req f w = (w', out)
    /\ live w' = live w
    /\ wf w'
    /\ match connect_fault f with
       | Some e => out = inl e /\ w' = w
       | None =>
           let client := {| conn := opened w |} in
           exists resp w1 asked,
             out = inr resp
             /\ ~ In (conn client) (live w)
             /\ opened w' = S (opened w)
             /\ isLive (conn client) (opening w) = true
             /\ router (target req) (handler_context req client) f (opening w)
                = (w1, inr resp)
             /\ w' = closing (conn client) w1
             /\ events w' =
                events w ++ [Connected (conn client)] ++ asked
                  ++ [Ended (conn client)]
             /\ Forall (fun ev => exists q, ev = Queried (conn client) q) asked
       end.
Proof.
  intros Hwf. destruct (connect_fault f) as [e|] eqn:Hc.
  - exists w, (inl e). rewrite (@fetch_refused req f w e Hc). auto.
  - rewrite (@fetch_connected req f w Hc).
    destruct (@router_total (target req)
                (handler_context req {| conn := opened w |})
                {| conn := opened w |} f (opening w) eq_refl)
      as (resp & w1 & Hr & Hl & Ho & asked & Hev & Hq).
    rewrite Hr. exists (closing (opened w) w1), (inr resp).
    assert (Hlive : live (closing (opened w) w1) = live w).
    { unfold closing. cbn [live record]. rewrite Hl. unfold opening.
      cbn [live record]. now apply close_fresh. }
    split; [reflexivity|]. split; [exact Hlive|]. split.
    { unfold wf. rewrite Hlive. unfold closing. cbn [opened record].
      rewrite Ho. unfold opening. cbn [opened record].
      eapply Forall_impl; [|exact Hwf]. simpl. intros; lia. }
    exists resp, w1, asked. cbn [conn].
    split; [reflexivity|]. split.
    { intros Hin. unfold wf in Hwf. rewrite Forall_forall in Hwf.
      specialize (Hwf _ Hin). lia. }
    split. { unfold closing. cbn [opened record]. now rewrite Ho. }
    split; [apply isLive_opening|]. split; [exact Hr|].
    split; [reflexivity|]. split; [|exact Hq].
    unfold closing. cbn [events record]. rewrite Hev. unfold opening.
    cbn [events record]. now rewrite <- !app_assoc.
Qed.

(** C1, as stated, fails on a preflight: a request of method OPTIONS is
    answered 204 by the CORS middleware of line 20, which does not call
    [next]; the database middleware does not run, and no connection is
    opened for that request. *)
Lemma preflight_opens_no_connection :
  app_fetch Preflight healthy world0 = (world0, inr NoContent)
  /\ ~ (exists id,
         In (Connected id) (events (fst (app_fetch Preflight healthy world0)))).
Proof.
  split; [reflexivity|]. intros [id H]. exact H.
Qed.

(** C1, amended.  A request of method OPTIONS is answered 204 by the CORS
    middleware and opens no connection.  Around every other request the
    database middleware opens one connection of its own before the
    handler runs, hands it to the handler in the context, and closes it
    after the handler, whether the statement of the handler ran or threw:
    the connections open after a request are the ones open before it.
    (When the connection cannot be opened no handler runs and the world
    is as it was.) *)
Theorem connection_lifecycle (i : inbound) (f : faults) (w : world) :
  wf w ->
  exists w' out,
    app_fetch i f w = (w', out)
    /\ live w' = live w
    /\ wf w'
    /\ match i with
       | Preflight => out = inr NoContent /\ w' = w
       | Passed req =>
           match connect_fault f with
           | Some e => out = inl e /\ w' = w
           | None =>
               let client := {| conn := opened w |} in
               exists resp w1 asked,
                 out = inr (Answered resp)
                 /\ ~ In (conn client) (live w)
                 /\ opened w' = S (opened w)
                 /\ isLive (conn client) (opening w) = true
                 /\ router (target req) (handler_context req client) f
                      (opening w)
                    = (w1, inr resp)
                 /\ w' = closing (conn client) w1
                 /\ events w' =
                    events w ++ [Connected (conn client)] ++ asked
                      ++ [Ended (conn client)]
                 /\ Forall (fun ev => exists q, ev = Queried (conn client) q)
                      asked
           end
       end.
Proof.
  intros Hwf. destruct i as [|req].
  - exists w, (inr NoContent). repeat split; auto.
  - destruct (chain_lifecycle req f Hwf) as (w' & out & E & Hl & Hw & H).
    unfold app_fetch, cors, bind. rewrite E.
    destruct (connect_fault f) as [e|].
    + destruct H as [-> ->]. exists w, (inl e). auto.
    + destruct H as (resp & w1 & asked & -> & H).
      exists w', (inr (Answered resp)).
      split; [reflexivity|]. split; [exact Hl|]. split; [exact Hw|].
      exists resp, w1, asked. split; [reflexivity | exact H].
Qed.

Lemma connection_lifecycle_witness :
  wf world0
  /\ exists w' out,
      app_fetch (Passed {| target := GetAll Posts; sent := nobody |})
        healthy world0
      = (w', out)
      /\ live w' = live world0.
Proof.
  assert (H : wf world0) by constructor.
  split; [exact H|].
  destruct (@connection_lifecycle
              (Passed {| target := GetAll Posts; sent := nobody |})
              healthy world0 H)
    as (w' & out & E & Hl & _).
  exists w', out. split; [exact E | exact Hl].
Defined.

(** *** Handlers *)

(** C3.  A PUT whose slug is the slug of no row of its table changes no
    row of either table, whatever its body and whatever fails; and it is
    answered 404 with [{error: "Post not found"}] (for drafts [{error:
    "Draft not found"}]) once its body is read and its statement runs. *)
Theorem update_missing_slug (t : resource) (s : jsstring) (b : body)
    (f : faults) (w : world) :
  (forall r, In r (table t (db w)) -> slug r <> s) ->
  exists w' out,
    fetch {| target := Put t s; sent := b |} f w = (w', out)
    /\ posts (db w') = posts (db w)
    /\ drafts (db w') = drafts (db w)
    /\ (forall ti co,
          b = ParsedObject ti co ->
          connect_fault f = None -> query_fault f = None ->
          out = inr (Json (Fields [("error",
                                    match t with
                                    | Posts => lit "Post not found"
                                    | Drafts => lit "Draft not found"
                                    end)]) 404)).
Proof.
  intros Hno. apply no_row_with_slug in Hno.
  destruct (update_no_match s None None (table t (db w)) Hno) as [_ Hf].
  exists (fst (fetch {| target := Put t s; sent := b |} f w)),
         (snd (fetch {| target := Put t s; sent := b |} f w)).
  split; [now destruct (fetch _ f w)|].
  assert (Hdb : db (fst (fetch {| target := Put t s; sent := b |} f w)) = db w).
  { destruct (fetch_update_db t s b f w) as [H|(ti & co & _ & _ & _ & H)];
      [exact H|].
    rewrite H. cbn [run fst].
    destruct (update_no_match s (prepareValue ti) (prepareValue co)
                (table t (db w)) Hno) as [-> _].
    apply with_table_same. }
  rewrite Hdb. split; [reflexivity|]. split; [reflexivity|].
  intros ti co -> Hc Hq.
  rewrite (@fetch_update_run f w Hc t s ti co Hq). cbn [run fst snd].
  rewrite Hf. cbn [map List.length Nat.eqb]. now destruct t.
Qed.

Lemma update_missing_slug_witness :
  exists w',
    fetch {| target := Put Posts (lit "nothing");
             sent := ParsedObject (Scalar (JString (lit "T"))) (Scalar JNull) |}
          healthy world2 =
    (w', inr (Json (Fields [("error", lit "Post not found")]) 404))
    /\ posts (db w') = posts (db world2)
    /\ drafts (db w') = drafts (db world2).
Proof.
  destruct (@update_missing_slug Posts (lit "nothing")
              (ParsedObject (Scalar (JString (lit "T"))) (Scalar JNull))
              healthy world2)
    as (w' & out & E & Hp & Hd & Hr).
  - intros r [<-|[<-|[]]]; discriminate.
  - exists w'. rewrite E.
    rewrite (Hr _ _ eq_refl eq_refl eq_refl). auto.
Defined.

(** C4.  When the statement throws, the handlers that list and create
    set the status 500 and return no body; the handlers that update and
    delete answer 500 with a JSON body of two fields, [error] with a fixed
    text and [message] with the message of the thrown error; and of the
    thrown error no response shows more than its message: two faults with
    one message get the same response, for every request. *)
Theorem query_failure_responses (t : resource) (s : jsstring)
    (ti co : value) (b : body) (f : faults) (w : world) (e : error) :
  connect_fault f = None -> query_fault f = Some e ->
  snd (fetch {| target := GetAll t; sent := b |} f w) = inr (StatusOnly 500)
  /\ snd (fetch {| target := Post t; sent := ParsedObject ti co |} f w)
     = inr (StatusOnly 500)
  /\ snd (fetch {| target := Put t s; sent := ParsedObject ti co |} f w)
     = inr (Json (Fields [("error",
                           match t with
                           | Posts => lit "Failed to update post"
                           | Drafts => lit "Failed to update draft"
                           end);
                          ("message", message e)]) 500)
  /\ snd (fetch {| target := Delete t s; sent := b |} f w)
     = inr (Json (Fields [("error",
                           match t with
                           | Posts => lit "Failed to delete post"
                           | Drafts => lit "Failed to delete draft"
                           end);
                          ("message", message e)]) 500)
  /\ (forall req f',
        connect_fault f' = None ->
        option_map message (query_fault f') = Some (message e) ->
        snd (fetch req f' w) = snd (fetch req f w)).
Proof.
  intros Hc Hq. repeat split.
  - now rewrite (@fetch_list_throws f w Hc t b e Hq).
  - destruct (asJs ti) as [e'|v] eqn:Hv.
    + now rewrite (@fetch_create_unprintable f w Hc t ti co e' Hv).
    + now rewrite (@fetch_create_throws f w Hc t ti co v e Hv Hq).
  - rewrite (@fetch_update_throws f w Hc t s ti co e Hq). now destruct t.
  - rewrite (@fetch_delete_throws f w Hc t s b e Hq). now destruct t.
  - intros req f' Hc' Hm. apply fetch_message_only; try assumption.
    now rewrite Hm, Hq.
Qed.

Lemma query_failure_responses_witness :
  snd (fetch {| target := GetAll Posts; sent := nobody |}
         (failing timeout) world0) = inr (StatusOnly 500)
  /\ snd (fetch {| target := Delete Posts (lit "old-title"); sent := nobody |}
           (failing timeout) world0)
     = inr (Json (Fields [("error", lit "Failed to delete post");
                          ("message", lit "connection terminated")]) 500).
Proof.
  destruct (@query_failure_responses Posts (lit "old-title")
              (Scalar JNull) (Scalar JNull)
              nobody (failing timeout) world0 timeout eq_refl eq_refl)
    as (H1 & _ & _ & H4 & _).
  split; [exact H1 | exact H4].
Defined.

(** C5.  A PUT never changes the column [slug] (nor [created_date]) of
    a row, and never touches the other table, whatever its body and
    whatever fails.  When its statement runs it writes into the rows whose
    slug is the path parameter what the driver makes of the new title and
    content (NULL for an absent value or [null], text for every other),
    and leaves the other rows as they were, whatever the new title is; it
    answers 201 with the first row it changed when there is one. *)
Theorem update_overwrites_title_content (t : resource) (s : jsstring)
    (b : body) (f : faults) (w : world) :
  exists w' out,
    fetch {| target := Put t s; sent := b |} f w = (w', out)
    /\ (forall t', map slug (table t' (db w')) = map slug (table t' (db w)))
    /\ (forall t', map created_date (table t' (db w'))
                   = map created_date (table t' (db w)))
    /\ table (other t) (db w') = table (other t) (db w)
    /\ (forall ti co,
          b = ParsedObject ti co ->
          connect_fault f = None -> query_fault f = None ->
          table t (db w') =
          map (fun r => if jsstring_eqb (slug r) s
                        then {| slug := slug r;
                                title := prepareValue ti;
                                content := prepareValue co;
                                created_date := created_date r |}
                        else r)
              (table t (db w))
          /\ out =
             inr match filter (fun r => jsstring_eqb (slug r) s)
                         (table t (db w)) with
                 | r :: _ =>
                     Json (FirstRow (Some {| slug := s;
                                             title := prepareValue ti;
                                             content := prepareValue co;
                                             created_date := created_date r |}))
                          201
                 | [] =>
                     Json (Fields [("error", lit (Noun t ++ " not found"))]) 404
                 end).
Proof.
  exists (fst (fetch {| target := Put t s; sent := b |} f w)),
         (snd (fetch {| target := Put t s; sent := b |} f w)).
  split; [now destruct (fetch _ f w)|].
  split; [|split; [|split]].
  - intros t'.
    destruct (fetch_update_db t s b f w) as [->|(ti & co & _ & _ & _ & ->)];
      [reflexivity | apply run_update_slugs].
  - intros t'.
    destruct (fetch_update_db t s b f w) as [->|(ti & co & _ & _ & _ & ->)];
      [reflexivity | apply run_update_dates].
  - destruct (fetch_update_db t s b f w) as [->|(ti & co & _ & _ & _ & ->)];
      [reflexivity | cbn [run fst]; apply table_with_other].
  - intros ti co -> Hc Hq.
    rewrite (@fetch_update_run f w Hc t s ti co Hq). cbn [run fst snd].
    split.
    + cbn [db closing queried record]. now rewrite table_with_table.
    + f_equal. fold (hasSlug s).
      destruct (filter (hasSlug s) (table t (db w))) as [|r l] eqn:E;
        [reflexivity|].
      assert (Hr : In r (filter (hasSlug s) (table t (db w))))
        by (rewrite E; now left).
      apply filter_In in Hr. destruct Hr as [_ Hr].
      apply hasSlug_true in Hr. cbn [map List.length Nat.eqb nth_error].
      unfold setFields. now rewrite Hr.
Qed.

(** The slug of a post stays when its title changes, and an absent
    content is stored as NULL: after the update the row under [old-title]
    carries a title whose slug is [new-title]. *)
Lemma update_overwrites_title_content_witness :
  exists w',
    fetch {| target := Put Posts (lit "old-title");
             sent := ParsedObject (Scalar (JString (lit "New Title")))
                                  (Scalar JUndefined) |}
          healthy world0 =
    (w', inr (Json (FirstRow (Some {| slug := lit "old-title";
                                     title := Some (lit "New Title");
                                     content := None;
                                     created_date := 3 |})) 201))
    /\ map slug (posts (db w')) = [lit "old-title"]
    /\ slugify (JString (lit "New Title")) = lit "new-title".
Proof.
  destruct (@update_overwrites_title_content Posts (lit "old-title")
              (ParsedObject (Scalar (JString (lit "New Title")))
                            (Scalar JUndefined))
              healthy world0)
    as (w' & out & E & Hs & _ & _ & Hr).
  exists w'. rewrite E.
  destruct (Hr _ _ eq_refl eq_refl eq_refl) as [_ ->].
  split; [reflexivity|]. split; [exact (Hs Posts)|]. vm_compute. reflexivity.
Defined.

(** C8.  A DELETE whose statement runs removes the rows whose slug is
    the path parameter and no other row, from its table alone.  It
    answers 201 with the message ["Post with slug <slug> deleted
    successfully"] (["Draft ..."] for drafts) when there was such a row
    and 404 with [{error: "Post not found"}] (["Draft not found"])
    otherwise.  A list that follows holds the rows that had another slug,
    and only them. *)
Theorem delete_removes_slug (t : resource) (s : jsstring) (b b2 : body)
    (f f2 : faults) (w : world) :
  connect_fault f = None -> query_fault f = None ->
  connect_fault f2 = None -> query_fault f2 = None ->
  exists w' w'' listed,
    fetch {| target := Delete t s; sent := b |} f w =
    (w', inr (if existsb (fun r => jsstring_eqb (slug r) s) (table t (db w))
              then Json (Fields [("message",
                                  match t with
                                  | Posts => lit "Post with slug "
                                  | Drafts => lit "Draft with slug "
                                  end ++ s ++ lit " deleted successfully")])
                        201
              else Json (Fields [("error",
                                  match t with
                                  | Posts => lit "Post not found"
                                  | Drafts => lit "Draft not found"
                                  end)]) 404))
    /\ table t (db w') =
       filter (fun r => negb (jsstring_eqb (slug r) s)) (table t (db w))
    /\ table (other t) (db w') = table (other t) (db w)
    /\ fetch {| target := GetAll t; sent := b2 |} f2 w' =
       (w'', inr (Json (Rows listed) 200))
    /\ (forall r, In r listed <-> In r (table t (db w)) /\ slug r <> s).
Proof.
  intros Hc Hq Hc2 Hq2.
  rewrite (@fetch_delete_run f w Hc t s b Hq). cbn [run fst snd].
  rewrite no_match_length.
  do 3 eexists. split; [|split; [|split; [|split]]].
  - f_equal. f_equal. fold (hasSlug s).
    destruct (existsb (hasSlug s) (table t (db w))); now destruct t.
  - cbn [db closing queried record]. now rewrite table_with_table.
  - cbn [db closing queried record]. now rewrite table_with_other.
  - now rewrite (@fetch_list_run f2 _ Hc2 t b2 Hq2).
  - intros r. rewrite orderDesc_In. cbn [db closing queried record].
    rewrite table_with_table. apply In_deleted.
Qed.

Lemma delete_removes_slug_witness :
  exists w' w'',
    fetch {| target := Delete Posts (lit "old-title"); sent := nobody |}
          healthy world0 =
    (w', inr (Json (Fields [("message",
                             lit "Post with slug old-title deleted successfully")])
                   201))
    /\ fetch {| target := GetAll Posts; sent := nobody |} healthy w' =
       (w'', inr (Json (Rows []) 200)).
Proof.
  destruct (@delete_removes_slug Posts (lit "old-title") nobody nobody
              healthy healthy world0 eq_refl eq_refl eq_refl eq_refl)
    as (w' & w'' & listed & E & _ & _ & E2 & Hin).
  exists w', w''. split; [exact E|].
  rewrite E2. do 3 f_equal.
  destruct listed as [|r l]; [reflexivity|]. exfalso.
  destruct (proj1 (Hin r) (or_introl eq_refl)) as [[<-|[]] Hs].
  now apply Hs.
Defined.

(** C10.  The handlers that create check nothing about the title: when
    it is absent, empty or falsy in another way, [slugify] gives the
    empty string, the INSERT is sent with that slug, and the answer is 201
    with the new row (its slug empty, its title and content what the
    driver made of the values sent), or 500 when the statement throws,
    never a 4xx. *)
Theorem create_accepts_falsy_title (t : resource) (ti : jsvalue) (co : value)
    (f : faults) (w : world) :
  connect_fault f = None -> truthy ti = false ->
  slugify ti = lit ""
  /\ exists w' resp,
      fetch {| target := Post t; sent := ParsedObject (Scalar ti) co |} f w
      = (w', inr resp)
      /\ In (Queried (opened w) (InsertRow t (lit "") (Scalar ti) co))
            (events w')
      /\ ~ (400 <= status_of resp < 500)%Z
      /\ match query_fault f with
         | None =>
             let r := {| slug := lit "";
                         title := prepareValue (Scalar ti);
                         content := prepareValue co;
                         created_date := clock (db w) |} in
             resp = Json (FirstRow (Some r)) 201
             /\ table t (db w') = table t (db w) ++ [r]
         | Some _ => resp = StatusOnly 500
         end.
Proof.
  intros Hc Ht.
  assert (Hs : slugify ti = lit "")
    by (destruct ti as [| | | |[|c l]|r]; try discriminate; reflexivity).
  split; [exact Hs|].
  destruct (query_fault f) as [e|] eqn:Hq.
  - rewrite (@fetch_create_throws f w Hc t (Scalar ti) co ti e eq_refl Hq), Hs.
    do 2 eexists. split; [reflexivity|].
    split; [|split; [|reflexivity]].
    + cbn [events closing queried logged record opening].
      rewrite !in_app_iff. simpl. tauto.
    + simpl. lia.
  - rewrite (@fetch_create_run f w Hc t (Scalar ti) co ti eq_refl Hq), Hs.
    do 2 eexists. split; [reflexivity|].
    split; [|split; [|split]].
    + cbn [events closing queried record opening].
      rewrite !in_app_iff. simpl. tauto.
    + simpl. lia.
    + reflexivity.
    + cbn [run fst db closing queried record]. now destruct t.
Qed.

Lemma create_accepts_falsy_title_witness :
  exists w',
    fetch {| target := Post Posts;
             sent := ParsedObject (Scalar JUndefined)
                                  (Scalar (JString (lit "text"))) |}
          healthy world0 =
    (w', inr (Json (FirstRow (Some {| slug := lit ""; title := None;
                                     content := Some (lit "text");
                                     created_date := 5 |})) 201))
    /\ In (Queried 0 (InsertRow Posts (lit "") (Scalar JUndefined)
                        (Scalar (JString (lit "text")))))
          (events w').
Proof.
  destruct (@create_accepts_falsy_title Posts JUndefined
              (Scalar (JString (lit "text")))
              healthy world0 eq_refl eq_refl)
    as (_ & w' & resp & E & Hin & _ & Hr & _).
  exists w'. rewrite E, Hr. split; [reflexivity | exact Hin].
Defined.

End Properties.

(* ================================================================= *)
(** ** Further behaviour of the server and of the slug generator *)

From Stdlib Require Import Sorted Permutation.

Module Behaviours.

Import Js Slug Api Config Requests JsFacts SlugFacts ApiFacts.

Local Open Scope string_scope.
Local Open Scope list_scope.

(** *** Every request, case by case *)

Section Outcomes.
Variables (f : faults) (w : world).
Hypothesis connects : connect_fault f = None.

Let id := opened w.

Lemma fetch_unmatched b :
  fetch {| target := Unmatched; sent := b |} f w =
  (closing id (opening w), inr NoRoute).
Proof. rewrite fetch_connected by exact connects. reflexivity. Qed.

Lemma fetch_update_fails t s ti co e :
  query_fault f = Some e ->
  fetch {| target := Put t s; sent := ParsedObject ti co |} f w =
  (closing id
     (logged (lit ("Error updating " ++ noun t ++ " ") ++ s ++ lit ":") e
        (queried id (UpdateRows t ti co s) (db w) (opening w))),
   inr (Json (Fields [("error", lit ("Failed to update " ++ noun t));
                      ("message", message e)]) 500)).
Proof.
  intros Hq. rewrite fetch_connected by exact connects.
  cbn [target router].
  rewrite update_handler_throws
    with (cl := {| conn := id |}) (ti := ti) (co := co) (e := e);
    try reflexivity; try assumption; apply isLive_opening.
Qed.

Lemma fetch_delete_fails t s b e :
  query_fault f = Some e ->
  fetch {| target := Delete t s; sent := b |} f w =
  (closing id
     (logged (lit ("Error deleting " ++ noun t ++ " ") ++ s ++ lit ":") e
        (queried id (DeleteRows t s) (db w) (opening w))),
   inr (Json (Fields [("error", lit ("Failed to delete " ++ noun t));
                      ("message", message e)]) 500)).
Proof.
  intros Hq. rewrite fetch_connected by exact connects.
  cbn [target router].
  rewrite delete_handler_throws with (cl := {| conn := id |}) (e := e);
    try reflexivity; try assumption; apply isLive_opening.
Qed.

Lemma fetch_create_unread t b e :
  body_error b = Some e ->
  fetch {| target := Post t; sent := b |} f w =
  (closing id (logged (lit ("Error creating " ++ noun t ++ ":")) e (opening w)),
   inr (StatusOnly 500)).
Proof.
  intros Hb. rewrite fetch_connected by exact connects.
  destruct b as [e'|e'|ti co]; simpl in Hb; try discriminate;
    injection Hb as <-; reflexivity.
Qed.

Lemma fetch_update_unread t s b e :
  body_error b = Some e ->
  fetch {| target := Put t s; sent := b |} f w =
  (closing id
     (logged (lit ("Error updating " ++ noun t ++ " ") ++ s ++ lit ":") e
        (opening w)),
   inr (Json (Fields [("error", lit ("Failed to update " ++ noun t));
                      ("message", message e)]) 500)).
Proof.
  intros Hb. rewrite fetch_connected by exact connects.
  destruct b as [e'|e'|ti co]; simpl in Hb; try discriminate;
    injection Hb as <-; reflexivity.
Qed.

(** What a request that got its connection leaves behind: the world of
    the handler, closed; and the handler either threw before it had a
    statement, logged that error and answered 500, or ran its statement,
    or logged the error of its statement and answered 500, or matched no
    route. *)
Lemma fetch_outcome req :
  exists resp w1,
    fetch req f w = (closing id w1, inr resp)
    /\ match thrown_early req, statement_of req, query_fault f with
       | Some e, _, _ =>
           exists label,
             w1 = logged label e (opening w) /\ status_of resp = 500%Z
       | None, Some q, None =>
           w1 = queried id q (fst (run q (db w))) (opening w)
           /\ status_of resp <> 500%Z
       | None, Some q, Some e =>
           exists label,
             w1 = logged label e (queried id q (db w) (opening w))
             /\ status_of resp = 500%Z
       | None, None, _ => w1 = opening w /\ resp = NoRoute
       end.
Proof.
  destruct req as [[t|t|t s|t s|] b];
    cbn [thrown_early statement_of target sent].
  - destruct (query_fault f) as [e|] eqn:Hq.
    + rewrite (@fetch_list_throws f w connects t b e Hq).
      do 2 eexists. split; [reflexivity|]. eexists. split; reflexivity.
    + rewrite (@fetch_list_run f w connects t b Hq).
      do 2 eexists. split; [reflexivity|]. split; [reflexivity|discriminate].
  - destruct b as [e'|e'|ti co]; cbn [body_error].
    + rewrite (@fetch_create_unread t (Malformed e') e' eq_refl).
      do 2 eexists. split; [reflexivity|]. eexists. split; reflexivity.
    + rewrite (@fetch_create_unread t (ParsedNull e') e' eq_refl).
      do 2 eexists. split; [reflexivity|]. eexists. split; reflexivity.
    + destruct (asJs ti) as [e'|v] eqn:Hv.
      * rewrite (@fetch_create_unprintable f w connects t ti co e' Hv).
        do 2 eexists. split; [reflexivity|]. eexists. split; reflexivity.
      * destruct (query_fault f) as [e|] eqn:Hq.
        -- rewrite (@fetch_create_throws f w connects t ti co v e Hv Hq).
           do 2 eexists. split; [reflexivity|]. eexists. split; reflexivity.
        -- rewrite (@fetch_create_run f w connects t ti co v Hv Hq).
           do 2 eexists. split; [reflexivity|].
           split; [reflexivity|discriminate].
  - destruct b as [e'|e'|ti co]; cbn [body_error].
    + rewrite (@fetch_update_unread t s (Malformed e') e' eq_refl).
      do 2 eexists. split; [reflexivity|]. eexists. split; reflexivity.
    + rewrite (@fetch_update_unread t s (ParsedNull e') e' eq_refl).
      do 2 eexists. split; [reflexivity|]. eexists. split; reflexivity.
    + destruct (query_fault f) as [e|] eqn:Hq.
      * rewrite (@fetch_update_fails t s ti co e Hq).
        do 2 eexists. split; [reflexivity|]. eexists. split; reflexivity.
      * rewrite (@fetch_update_run f w connects t s ti co Hq).
        destruct (List.length _ =? 0)%nat;
          do 2 eexists; (split; [reflexivity|]);
          (split; [reflexivity|discriminate]).
  - destruct (query_fault f) as [e|] eqn:Hq.
    + rewrite (@fetch_delete_fails t s b e Hq).
      do 2 eexists. split; [reflexivity|]. eexists. split; reflexivity.
    + rewrite (@fetch_delete_run f w connects t s b Hq).
      destruct (List.length _ =? 0)%nat;
        do 2 eexists; (split; [reflexivity|]);
        (split; [reflexivity|discriminate]).
  - rewrite fetch_unmatched. do 2 eexists. split; [reflexivity|].
    split; reflexivity.
Qed.
End Outcomes.

(** *** Listing *)

Lemma insertDesc_perm r l : Permutation (insertDesc r l) (r :: l).
Proof.
  induction l as [|x t IH]; simpl; [reflexivity|].
  destruct (created_date x <? created_date r)%Z; [reflexivity|].
  rewrite IH. apply perm_swap.
Qed.

Lemma orderDesc_perm l : Permutation (orderDesc l) l.
Proof.
  induction l as [|x t IH]; simpl; [reflexivity|].
  rewrite insertDesc_perm. now apply perm_skip.
Qed.

Lemma insertDesc_sorted r l :
  StronglySorted newerFirst l -> StronglySorted newerFirst (insertDesc r l).
Proof.
  induction 1 as [|x t Ht IH Hx]; simpl.
  - repeat constructor.
  - destruct (Z.ltb_spec (created_date x) (created_date r)).
    + constructor; [now constructor|].
      constructor; [unfold newerFirst; lia|].
      eapply Forall_impl; [|exact Hx]. unfold newerFirst. intros; lia.
    + constructor; [exact IH|].
      apply Forall_forall. intros y Hy. apply insertDesc_In in Hy.
      destruct Hy as [->|Hy]; [exact H|].
      rewrite Forall_forall in Hx. now apply Hx.
Qed.

Lemma orderDesc_sorted l : StronglySorted newerFirst (orderDesc l).
Proof.
  induction l as [|x t IH]; simpl; [constructor|].
  now apply insertDesc_sorted.
Qed.

(** X1.  A list request whose statement runs answers 200 with the rows
    of its table, all of them and each once, the newer before the older,
    and changes no table. *)
Theorem list_newest_first (t : resource) (b : body) (f : faults) (w : world) :
  connect_fault f = None -> query_fault f = None ->
  exists w' listed,
    fetch {| target := GetAll t; sent := b |} f w =
    (w', inr (Json (Rows listed) 200))
    /\ Permutation listed (table t (db w))
    /\ StronglySorted (fun x y => (created_date y <= created_date x)%Z) listed
    /\ db w' = db w.
Proof.
  intros Hc Hq. rewrite (@fetch_list_run f w Hc t b Hq).
  do 2 eexists. split; [reflexivity|].
  split; [apply orderDesc_perm|]. split; [apply orderDesc_sorted|reflexivity].
Qed.

Lemma list_newest_first_witness :
  exists w',
    fetch {| target := GetAll Posts; sent := nobody |} healthy world0 =
    (w', inr (Json (Rows (posts (db world0))) 200))
    /\ db w' = db world0.
Proof.
  destruct (@list_newest_first Posts nobody healthy world0 eq_refl eq_refl)
    as (w' & listed & E & Hp & _ & Hd).
  exists w'. split; [|exact Hd].
  apply Permutation_sym, Permutation_length_1_inv in Hp.
  rewrite E, Hp. reflexivity.
Defined.

(** *** Creating *)

(** X2.  A create request whose title can be read as a string and whose
    statement runs adds one row at the end of its table (the slug of the
    title; the title and content as the driver sends them, NULL for an
    absent value or [null] and text for every other; the time of
    insertion) and answers 201 with that row; the rows that were there and
    the other table stay; the stored slug is well formed; and a list that
    follows holds the new row. *)
Theorem create_adds_row (t : resource) (ti co : value) (v : jsvalue)
    (b2 : body) (f f2 : faults) (w : world) :
  connect_fault f = None -> query_fault f = None ->
  connect_fault f2 = None -> query_fault f2 = None ->
  asJs ti = inr v ->
  let r := {| slug := slugify v; title := prepareValue ti;
              content := prepareValue co; created_date := clock (db w) |} in
  exists w' w'' listed,
    fetch {| target := Post t; sent := ParsedObject ti co |} f w =
    (w', inr (Json (FirstRow (Some r)) 201))
    /\ table t (db w') = table t (db w) ++ [r]
    /\ table (other t) (db w') = table (other t) (db w)
    /\ wellFormedSlug (slug r) = true
    /\ fetch {| target := GetAll t; sent := b2 |} f2 w' =
       (w'', inr (Json (Rows listed) 200))
    /\ In r listed.
Proof.
  intros Hc Hq Hc2 Hq2 Hv r.
  rewrite (@fetch_create_run f w Hc t ti co v Hv Hq).
  cbn [run fst snd nth_error].
  do 3 eexists. split; [reflexivity|].
  assert (Ht : forall d, table t
            {| posts := posts (with_table t (table t d ++ [r]) d);
               drafts := drafts (with_table t (table t d ++ [r]) d);
               clock := (clock d + 1)%Z |} = table t d ++ [r])
    by (intros d; now destruct t).
  split; [|split; [|split; [|split]]].
  - cbn [db closing queried record]. apply Ht.
  - cbn [db closing queried record]. now destruct t.
  - apply slugify_wellFormed.
  - now rewrite (@fetch_list_run f2 _ Hc2 t b2 Hq2).
  - apply orderDesc_In. cbn [db closing queried record].
    change (db (opening w)) with (db w). rewrite Ht.
    apply in_or_app. right. now left.
Qed.

Lemma create_adds_row_witness :
  exists w',
    fetch {| target := Post Drafts;
             sent := ParsedObject (Scalar (JString (lit "My First Post")))
                                  (Scalar (JTruthy (lit "42"))) |}
          healthy world0 =
    (w', inr (Json (FirstRow (Some {| slug := lit "my-first-post";
                                     title := Some (lit "My First Post");
                                     content := Some (lit "42");
                                     created_date := 5 |})) 201))
    /\ List.length (drafts (db w')) = 1%nat.
Proof.
  destruct (@create_adds_row Drafts (Scalar (JString (lit "My First Post")))
              (Scalar (JTruthy (lit "42"))) (JString (lit "My First Post"))
              nobody healthy healthy world0
              eq_refl eq_refl eq_refl eq_refl eq_refl)
    as (w' & _ & _ & E & Ht & _).
  exists w'. split; [exact E|].
  change (drafts (db w')) with (table Drafts (db w')). now rewrite Ht.
Defined.

(** *** What every request leaves alone *)

(** The tables after a request are the tables before it, or what the
    statement of the request makes of them. *)
Lemma fetch_db req f w :
  db (fst (fetch req f w)) = db w
  \/ exists q,
       statement_of req = Some q
       /\ db (fst (fetch req f w)) = fst (run q (db w)).
Proof.
  destruct (connect_fault f) as [e|] eqn:Hc.
  - left. now rewrite (@fetch_refused req f w e Hc).
  - destruct (@fetch_outcome f w Hc req) as (resp & w1 & -> & H).
    destruct (thrown_early req) as [e'|];
      [destruct H as (label & -> & _); now left|].
    destruct (statement_of req) as [q|];
      [|destruct H as (-> & _); now left].
    destruct (query_fault f) as [e|].
    + destruct H as (label & -> & _). now left.
    + destruct H as (-> & _). right. now exists q.
Qed.

Lemma statement_of_resource req q :
  statement_of req = Some q ->
  match q with
  | SelectAll t | InsertRow t _ _ _ | UpdateRows t _ _ _ | DeleteRows t _ =>
      resource_of (target req) = Some t
  end.
Proof.
  destruct req as [[t|t|t s|t s|] [e|e|ti co]]; cbn; intros H;
    try discriminate;
    try (destruct (asJs ti); try discriminate);
    injection H as <-; reflexivity.
Qed.

Lemma run_other_table q d t :
  match q with
  | SelectAll u | InsertRow u _ _ _ | UpdateRows u _ _ _ | DeleteRows u _ =>
      u = t
  end ->
  table (other t) (fst (run q d)) = table (other t) d.
Proof. destruct q; intros ->; now destruct t. Qed.

(** X3.  Posts and drafts are apart: whatever a request about one table
    carries and whatever fails, it leaves the rows of the other table as
    they were; a list request and a request that matches no route leave
    both tables as they were. *)
Theorem tables_are_isolated (req : request) (f : faults) (w : world) :
  match target req with
  | GetAll _ | Unmatched => db (fst (fetch req f w)) = db w
  | Post t | Put t _ | Delete t _ =>
      table (other t) (db (fst (fetch req f w))) = table (other t) (db w)
  end.
Proof.
  destruct (fetch_db req f w) as [H|(q & Hq & H)].
  - rewrite H. now destruct (target req).
  - rewrite H. pose proof (statement_of_resource req Hq) as Hr.
    destruct req as [[t|t|t s|t s|] b]; cbn [target] in *;
      destruct q; cbn in Hr; try discriminate;
      try (injection Hr as <-; apply run_other_table; reflexivity).
    destruct b; cbn in Hq; injection Hq as <-; reflexivity.
Qed.

(** *** What is sent to the database *)

Lemma thrown_early_no_statement req e :
  thrown_early req = Some e -> statement_of req = None.
Proof.
  destruct req as [[t|t|t s|t s|] [e'|e'|ti co]]; cbn; try discriminate;
    try reflexivity.
  now destruct (asJs ti).
Qed.

(** X4.  A request that gets its connection sends at most one statement,
    on that connection, between opening and closing it: the SELECT,
    INSERT, UPDATE or DELETE of its route with the slug of the title, the
    title, the content and the path parameter in the places of the
    source, and nothing when the body of a create or update does not
    destructure, when the [toString()] of the title of a create throws,
    or when no route matches.  A fault of the statement does not change
    what was sent. *)
Theorem one_statement_per_request (req : request) (f : faults) (w : world) :
  connect_fault f = None ->
  exists w' resp,
    fetch req f w = (w', inr resp)
    /\ events w' =
       events w ++ [Connected (opened w)]
         ++ match statement_of req with
            | Some q => [Queried (opened w) q]
            | None => []
            end
         ++ [Ended (opened w)].
Proof.
  intros Hc. destruct (@fetch_outcome f w Hc req) as (resp & w1 & -> & H).
  do 2 eexists. split; [reflexivity|].
  cbn [events closing record].
  destruct (thrown_early req) as [e'|] eqn:He.
  - rewrite (thrown_early_no_statement req He).
    destruct H as (label & -> & _). cbn [events logged opening record].
    now rewrite <- !app_assoc.
  - destruct (statement_of req) as [q|];
      [|destruct H as (-> & _); cbn [events opening record];
        now rewrite <- !app_assoc].
    destruct (query_fault f) as [e|].
    + destruct H as (label & -> & _).
      cbn [events logged queried opening record]. now rewrite <- !app_assoc.
    + destruct H as (-> & _). cbn [events queried opening record].
      now rewrite <- !app_assoc.
Qed.

Lemma one_statement_per_request_witness :
  exists w' resp,
    fetch {| target := Post Posts;
             sent := ParsedObject (Scalar (JString (lit "A  b")))
                                  (Scalar JNull) |}
          (failing timeout) world0 = (w', inr resp)
    /\ events w' =
       [Connected 0;
        Queried 0 (InsertRow Posts (lit "a-b") (Scalar (JString (lit "A  b")))
                     (Scalar JNull));
        Ended 0].
Proof.
  destruct (@one_statement_per_request
              {| target := Post Posts;
                 sent := ParsedObject (Scalar (JString (lit "A  b")))
                                      (Scalar JNull) |}
              (failing timeout) world0 eq_refl)
    as (w' & resp & E & Hev).
  exists w', resp. split; [exact E|]. rewrite Hev. vm_compute. reflexivity.
Defined.

(** *** Bodies that cannot be read *)

(** X5.  When reading the body of a create or update request throws (it
    is not JSON, or it is the JSON [null], which does not destructure), no
    statement is sent and no table changes; the create handler sets
    status 500 without a body, and the update handler answers 500 with its
    fixed [error] text and, as [message], the message of the value that
    was thrown, whatever it is. *)
Theorem unreadable_body (t : resource) (s : jsstring) (b : body) (e : error)
    (f : faults) (w : world) :
  connect_fault f = None ->
  body_error b = Some e ->
  (exists w',
     fetch {| target := Post t; sent := b |} f w = (w', inr (StatusOnly 500))
     /\ db w' = db w
     /\ events w' = events w ++ [Connected (opened w); Ended (opened w)])
  /\ (exists w',
        fetch {| target := Put t s; sent := b |} f w =
        (w', inr (Json (Fields [("error",
                                 match t with
                                 | Posts => lit "Failed to update post"
                                 | Drafts => lit "Failed to update draft"
                                 end);
                                ("message", message e)]) 500))
        /\ db w' = db w
        /\ events w' = events w ++ [Connected (opened w); Ended (opened w)]).
Proof.
  intros Hc Hb. split.
  - rewrite (@fetch_create_unread f w Hc t b e Hb).
    eexists. split; [reflexivity|]. split; [reflexivity|].
    cbn [events closing logged opening record]. now rewrite <- app_assoc.
  - rewrite (@fetch_update_unread f w Hc t s b e Hb).
    eexists. split; [now destruct t|]. split; [reflexivity|].
    cbn [events closing logged opening record]. now rewrite <- app_assoc.
Qed.

Lemma unreadable_body_witness :
  exists w',
    fetch {| target := Put Posts (lit "old-title"); sent := nobody |}
          healthy world0 =
    (w', inr (Json (Fields [("error", lit "Failed to update post");
                            ("message", lit "Unexpected end of JSON input")])
                   500))
    /\ db w' = db world0.
Proof.
  destruct (@unreadable_body Posts (lit "old-title") nobody
              {| message := lit "Unexpected end of JSON input";
                 internals := lit "SyntaxError" |}
              healthy world0 eq_refl eq_refl)
    as (_ & w' & E & Hd & _).
  exists w'. split; [exact E | exact Hd].
Defined.

(** *** Status codes and the log *)

(** X6.  The status of a response is 200 or 500 for a list request, 201
    or 500 for a create request, 201, 404 or 500 for an update or delete
    request, and 404 where no route matches: a success of create, update
    and delete is always 201, and no request is answered with another
    4xx than 404. *)
Theorem status_by_route (req : request) (f : faults) (w : world) :
  connect_fault f = None ->
  exists w' resp,
    fetch req f w = (w', inr resp)
    /\ match target req with
       | GetAll _ => status_of resp = 200 \/ status_of resp = 500
       | Post _ => status_of resp = 201 \/ status_of resp = 500
       | Put _ _ | Delete _ _ =>
           status_of resp = 201 \/ status_of resp = 404
           \/ status_of resp = 500
       | Unmatched => status_of resp = 404
       end%Z.
Proof.
  intros Hc. destruct req as [[t|t|t s|t s|] b]; cbn [target].
  - destruct (query_fault f) as [e|] eqn:Hq.
    + rewrite (@fetch_list_throws f w Hc t b e Hq). do 2 eexists.
      split; [reflexivity|]. now right.
    + rewrite (@fetch_list_run f w Hc t b Hq). do 2 eexists.
      split; [reflexivity|]. now left.
  - destruct (body_error b) as [e'|] eqn:Hb.
    + rewrite (@fetch_create_unread f w Hc t b e' Hb). do 2 eexists.
      split; [reflexivity|]. now right.
    + destruct b as [e'|e'|ti co]; try discriminate.
      destruct (asJs ti) as [e'|v] eqn:Hv.
      * rewrite (@fetch_create_unprintable f w Hc t ti co e' Hv).
        do 2 eexists. split; [reflexivity|]. now right.
      * destruct (query_fault f) as [e|] eqn:Hq.
        -- rewrite (@fetch_create_throws f w Hc t ti co v e Hv Hq).
           do 2 eexists. split; [reflexivity|]. now right.
        -- rewrite (@fetch_create_run f w Hc t ti co v Hv Hq).
           do 2 eexists. split; [reflexivity|]. now left.
  - destruct (body_error b) as [e'|] eqn:Hb.
    + rewrite (@fetch_update_unread f w Hc t s b e' Hb). do 2 eexists.
      split; [reflexivity|]. now right; right.
    + destruct b as [e'|e'|ti co]; try discriminate.
      destruct (query_fault f) as [e|] eqn:Hq.
      * rewrite (@fetch_update_fails f w Hc t s ti co e Hq). do 2 eexists.
        split; [reflexivity|]. now right; right.
      * rewrite (@fetch_update_run f w Hc t s ti co Hq).
        destruct (List.length _ =? 0)%nat;
          [ do 2 eexists; split; [reflexivity | now right; left]
          | do 2 eexists; split; [reflexivity | now left] ].
  - destruct (query_fault f) as [e|] eqn:Hq.
    + rewrite (@fetch_delete_fails f w Hc t s b e Hq). do 2 eexists.
      split; [reflexivity|]. now right; right.
    + rewrite (@fetch_delete_run f w Hc t s b Hq).
      destruct (List.length _ =? 0)%nat;
        [ do 2 eexists; split; [reflexivity | now right; left]
        | do 2 eexists; split; [reflexivity | now left] ].
  - rewrite (@fetch_unmatched f w Hc b). do 2 eexists.
    split; reflexivity.
Qed.

Lemma status_by_route_witness :
  exists w' resp,
    fetch {| target := Delete Drafts (lit "gone"); sent := nobody |}
          healthy world0 = (w', inr resp)
    /\ status_of resp = 404%Z.
Proof.
  destruct (@status_by_route
              {| target := Delete Drafts (lit "gone"); sent := nobody |}
              healthy world0 eq_refl)
    as (w' & resp & E & _).
  exists w', resp. split; [exact E|].
  vm_compute in E. injection E as _ <-. reflexivity.
Defined.

(** X7.  The handlers of the source call [console.error] exactly when
    they catch an error, and then once, with the value they caught: the
    error of the body, of the [toString()] of the title, or of the
    statement.  Such a request is answered 500; every other request is not
    and its handler writes nothing.  (The lines that the framework writes
    on its own are not in [console].) *)
Theorem errors_are_logged_once (req : request) (f : faults) (w : world) :
  connect_fault f = None ->
  exists w' resp,
    fetch req f w = (w', inr resp)
    /\ match caught req f with
       | Some e =>
           status_of resp = 500%Z
           /\ exists label, console w' = console w ++ [(label, e)]
       | None => status_of resp <> 500%Z /\ console w' = console w
       end.
Proof.
  intros Hc. destruct (@fetch_outcome f w Hc req) as (resp & w1 & -> & H).
  do 2 eexists. split; [reflexivity|].
  cbn [console closing record]. unfold caught.
  destruct (thrown_early req) as [e'|].
  - destruct H as (label & -> & Hs). split; [exact Hs|]. now exists label.
  - destruct (statement_of req) as [q|];
      [|destruct H as (-> & ->); split; [discriminate|reflexivity]].
    destruct (query_fault f) as [e|].
    + destruct H as (label & -> & Hs). split; [exact Hs|]. now exists label.
    + destruct H as (-> & Hs). now split.
Qed.

Lemma errors_are_logged_once_witness :
  exists w' label,
    fst (fetch {| target := GetAll Posts; sent := nobody |}
           (failing timeout) world0) = w'
    /\ console w' = [(label, timeout)].
Proof.
  destruct (@errors_are_logged_once
              {| target := GetAll Posts; sent := nobody |}
              (failing timeout) world0 eq_refl)
    as (w' & resp & E & _ & label & Hl).
  exists w', label. rewrite E. split; [reflexivity | exact Hl].
Defined.

(** *** How requests compose *)

Lemma insertDesc_map (g : row -> row) r l :
  (forall x, created_date (g x) = created_date x) ->
  insertDesc (g r) (map g l) = map g (insertDesc r l).
Proof.
  intros Hg. induction l as [|x t IH]; simpl; [reflexivity|].
  rewrite !Hg. destruct (created_date x <? created_date r)%Z;
    simpl; [reflexivity | now rewrite IH].
Qed.

Lemma orderDesc_map (g : row -> row) l :
  (forall x, created_date (g x) = created_date x) ->
  orderDesc (map g l) = map g (orderDesc l).
Proof.
  intros Hg. induction l as [|x t IH]; simpl; [reflexivity|].
  now rewrite IH, insertDesc_map.
Qed.

Lemma updated_date s ti co r :
  created_date (updated s ti co r) = created_date r.
Proof. unfold updated. now destruct (jsstring_eqb (slug r) s). Qed.

Lemma updated_slug s ti co r : slug (updated s ti co r) = slug r.
Proof. unfold updated. now destruct (jsstring_eqb (slug r) s). Qed.

Lemma updated_twice s ti co r :
  updated s ti co (updated s ti co r) = updated s ti co r.
Proof.
  unfold updated. destruct (jsstring_eqb (slug r) s) eqn:E; simpl;
    now rewrite E.
Qed.

Lemma run_update_table t ti co s d :
  table t (fst (run (UpdateRows t ti co s) d))
  = map (updated s ti co) (table t d).
Proof. cbn [run fst]. now rewrite table_with_table. Qed.

Lemma updated_rows s ti co (l : list row) :
  map (setFields (prepareValue ti) (prepareValue co)) (filter (hasSlug s) l)
  = filter (hasSlug s) (map (updated s ti co) l).
Proof.
  induction l as [|r l IH]; simpl; [reflexivity|].
  unfold updated, hasSlug in *.
  destruct (jsstring_eqb (slug r) s) eqn:E; simpl; rewrite E; simpl;
    now rewrite IH.
Qed.

Lemma run_update_rows t ti co s d :
  snd (run (UpdateRows t ti co s) d)
  = filter (hasSlug s) (map (updated s ti co) (table t d)).
Proof. cbn [run snd]. apply updated_rows. Qed.

(** Rows of distinct dates have one arrangement with the newer first. *)
Lemma newest_first_unique (l1 : list row) :
  forall l2,
    NoDup (map created_date l1) ->
    Permutation l1 l2 ->
    StronglySorted newerFirst l1 -> StronglySorted newerFirst l2 ->
    l1 = l2.
Proof.
  induction l1 as [|a l1 IH]; intros l2 Hn Hp H1 H2.
  - now apply Permutation_nil in Hp.
  - destruct l2 as [|b l2];
      [apply Permutation_sym, Permutation_nil in Hp; discriminate|].
    inversion Hn as [|? ? Hna Hn1]; subst.
    inversion H1 as [|? ? Hs1 Hf1]; subst.
    inversion H2 as [|? ? Hs2 Hf2]; subst.
    assert (Hab : a = b).
    { assert (Ha : In a (b :: l2))
        by (eapply Permutation_in; [exact Hp | now left]).
      assert (Hb : In b (a :: l1))
        by (eapply Permutation_in;
            [apply Permutation_sym; exact Hp | now left]).
      destruct Ha as [Ha|Ha]; [now symmetry|].
      destruct Hb as [Hb|Hb]; [exact Hb|].
      rewrite Forall_forall in Hf1, Hf2.
      pose proof (Hf1 b Hb) as Hba. pose proof (Hf2 a Ha) as Hab.
      unfold newerFirst in Hba, Hab.
      exfalso. apply Hna.
      replace (created_date a) with (created_date b) by lia.
      now apply in_map. }
    subst b. f_equal.
    apply IH; try assumption. now apply Permutation_cons_inv in Hp.
Qed.

(** X8.  An update keeps every row at its place in the listing: when
    the rows of the table have distinct dates, the list after an update
    is the list before it with the new title and content, as the driver
    sent them, in the rows of that slug; and it is the only arrangement
    of the rows of the table with the newer first. *)
Theorem update_keeps_listing_order (t : resource) (s : jsstring)
    (ti co : value) (b1 b2 : body) (f f1 f2 : faults) (w : world) :
  connect_fault f = None -> query_fault f = None ->
  connect_fault f1 = None -> query_fault f1 = None ->
  connect_fault f2 = None -> query_fault f2 = None ->
  NoDup (map created_date (table t (db w))) ->
  exists before w1 w' out w2,
    fetch {| target := GetAll t; sent := b1 |} f1 w =
    (w1, inr (Json (Rows before) 200))
    /\ fetch {| target := Put t s; sent := ParsedObject ti co |} f w = (w', out)
    /\ fetch {| target := GetAll t; sent := b2 |} f2 w' =
       (w2, inr (Json (Rows (map (updated s ti co) before)) 200))
    /\ (forall l,
          Permutation l (table t (db w')) ->
          StronglySorted (fun x y => (created_date y <= created_date x)%Z) l ->
          l = map (updated s ti co) before).
Proof.
  intros Hc Hq Hc1 Hq1 Hc2 Hq2 Hn.
  rewrite (@fetch_list_run f1 w Hc1 t b1 Hq1).
  rewrite (@fetch_update_run f w Hc t s ti co Hq).
  do 5 eexists. split; [reflexivity|]. split; [reflexivity|].
  rewrite (@fetch_list_run f2 _ Hc2 t b2 Hq2).
  assert (Ho : orderDesc (map (updated s ti co) (table t (db w)))
               = map (updated s ti co) (orderDesc (table t (db w))))
    by (apply orderDesc_map; intros x; apply updated_date).
  split.
  - do 4 f_equal. cbn [db closing queried record].
    rewrite run_update_table. change (db (opening w)) with (db w).
    exact Ho.
  - intros l Hp Hs. cbn [db closing queried record] in Hp.
    rewrite run_update_table in Hp.
    change (db (opening w)) with (db w) in Hp.
    change (snd (run (SelectAll t) (db w)))
      with (orderDesc (table t (db w))).
    rewrite <- Ho.
    symmetry. apply newest_first_unique.
    + assert (Hd : map created_date
                     (orderDesc (map (updated s ti co) (table t (db w))))
                   = map created_date (orderDesc (table t (db w)))).
      { rewrite Ho, map_map. apply map_ext. intros x. apply updated_date. }
      rewrite Hd.
      eapply Permutation_NoDup; [|exact Hn].
      apply Permutation_map, Permutation_sym, orderDesc_perm.
    + rewrite orderDesc_perm. now apply Permutation_sym.
    + apply orderDesc_sorted.
    + exact Hs.
Qed.

(** The older of two posts is updated and stays second in the list. *)
Lemma update_keeps_listing_order_witness :
  exists w' out w2,
    fetch {| target := Put Posts (lit "first");
             sent := ParsedObject (Scalar (JString (lit "T")))
                                  (Scalar JNull) |}
          healthy world2 = (w', out)
    /\ fetch {| target := GetAll Posts; sent := nobody |} healthy w' =
       (w2, inr (Json (Rows [ {| slug := lit "second";
                                 title := Some (lit "Second");
                                 content := Some (lit "text");
                                 created_date := 2 |};
                              {| slug := lit "first";
                                 title := Some (lit "T");
                                 content := None;
                                 created_date := 1 |} ]) 200)).
Proof.
  assert (Hn : NoDup (map created_date (table Posts (db world2)))).
  { simpl. repeat constructor; simpl; intuition discriminate. }
  destruct (@update_keeps_listing_order Posts (lit "first")
              (Scalar (JString (lit "T"))) (Scalar JNull) nobody nobody
              healthy healthy healthy world2
              eq_refl eq_refl eq_refl eq_refl eq_refl eq_refl Hn)
    as (before & w1 & w' & out & w2 & E1 & E & E2 & _).
  exists w', out, w2. split; [exact E|]. rewrite E2.
  vm_compute in E1. injection E1 as _ <-. reflexivity.
Defined.

Lemma deleted_twice s (l : list row) :
  filter (hasSlug s) (filter (fun r => negb (hasSlug s r)) l) = []
  /\ filter (fun r => negb (hasSlug s r))
            (filter (fun r => negb (hasSlug s r)) l)
     = filter (fun r => negb (hasSlug s r)) l.
Proof.
  induction l as [|r t [IH1 IH2]]; simpl; [tauto|].
  destruct (hasSlug s r) eqn:E; simpl; [tauto|].
  rewrite E. simpl. now rewrite IH1, IH2.
Qed.

(** X9.  Deleting twice: after a delete whose statement ran, a second
    delete of the same slug is answered 404 with [{error: "Post not
    found"}] (["Draft not found"]) and changes nothing. *)
Theorem delete_twice (t : resource) (s : jsstring) (b b2 : body)
    (f f2 : faults) (w : world) :
  connect_fault f = None -> query_fault f = None ->
  connect_fault f2 = None -> query_fault f2 = None ->
  exists w' out w'',
    fetch {| target := Delete t s; sent := b |} f w = (w', out)
    /\ fetch {| target := Delete t s; sent := b2 |} f2 w' =
       (w'', inr (Json (Fields [("error",
                                 match t with
                                 | Posts => lit "Post not found"
                                 | Drafts => lit "Draft not found"
                                 end)]) 404))
    /\ db w'' = db w'.
Proof.
  intros Hc Hq Hc2 Hq2.
  rewrite (@fetch_delete_run f w Hc t s b Hq).
  do 3 eexists. split; [reflexivity|].
  rewrite (@fetch_delete_run f2 _ Hc2 t s b2 Hq2).
  cbn [run fst snd db closing queried record].
  rewrite !table_with_table.
  destruct (deleted_twice s (table t (db w))) as [H1 H2]. rewrite H1, H2.
  split; [now destruct t|].
  cbn [db closing queried record]. now destruct t.
Qed.

Lemma delete_twice_witness :
  exists w' out w'',
    fetch {| target := Delete Posts (lit "old-title"); sent := nobody |}
          healthy world0 = (w', out)
    /\ fetch {| target := Delete Posts (lit "old-title"); sent := nobody |}
             healthy w' =
       (w'', inr (Json (Fields [("error", lit "Post not found")]) 404)).
Proof.
  destruct (@delete_twice Posts (lit "old-title") nobody nobody
              healthy healthy world0 eq_refl eq_refl eq_refl eq_refl)
    as (w' & out & w'' & E & E2 & _).
  exists w', out, w''. split; [exact E | exact E2].
Defined.

Lemma deleted_appended s (l : list row) r :
  existsb (hasSlug s) l = false -> hasSlug s r = true ->
  filter (fun x => negb (hasSlug s x)) (l ++ [r]) = l
  /\ existsb (hasSlug s) (l ++ [r]) = true.
Proof.
  intros Hl Hr. rewrite filter_app, existsb_app. simpl. rewrite Hr. simpl.
  rewrite app_nil_r, orb_true_r. split; [|reflexivity].
  induction l as [|x t IH]; simpl in *; [reflexivity|].
  apply orb_false_iff in Hl. destruct Hl as [-> Ht]. simpl.
  now rewrite IH.
Qed.

(** X10.  Create, then delete by the slug that the create computed:
    when the title can be read as a string, its slug is not empty (a path
    with an empty slug matches no route) and the table had no row of that
    slug, the delete is answered 201 with the message carrying the slug
    and the rows of both tables are again the rows before the create. *)
Theorem create_then_delete (t : resource) (ti co : value) (v : jsvalue)
    (b2 : body) (f f2 : faults) (w : world) :
  connect_fault f = None -> query_fault f = None ->
  connect_fault f2 = None -> query_fault f2 = None ->
  asJs ti = inr v ->
  slugify v <> [] ->
  (forall r, In r (table t (db w)) -> slug r <> slugify v) ->
  exists w' out w'',
    fetch {| target := Post t; sent := ParsedObject ti co |} f w = (w', out)
    /\ fetch {| target := Delete t (slugify v); sent := b2 |} f2 w' =
       (w'', inr (Json (Fields [("message",
                                 match t with
                                 | Posts => lit "Post with slug "
                                 | Drafts => lit "Draft with slug "
                                 end ++ slugify v
                                 ++ lit " deleted successfully")]) 201))
    /\ posts (db w'') = posts (db w)
    /\ drafts (db w'') = drafts (db w).
Proof.
  intros Hc Hq Hc2 Hq2 Hv _ Hno. apply no_row_with_slug in Hno.
  rewrite (@fetch_create_run f w Hc t ti co v Hv Hq).
  do 3 eexists. split; [reflexivity|].
  rewrite (@fetch_delete_run f2 _ Hc2 t (slugify v) b2 Hq2).
  cbn [run fst snd db closing queried record].
  change (db (opening w)) with (db w).
  set (r := {| slug := slugify v; title := prepareValue ti;
               content := prepareValue co; created_date := clock (db w) |}).
  assert (Hr : hasSlug (slugify v) r = true) by apply jsstring_eqb_eq, eq_refl.
  destruct (deleted_appended (slugify v) (table t (db w)) r Hno Hr)
    as [Hf He].
  rewrite no_match_length.
  destruct t; cbn [table with_table posts drafts] in *; rewrite He, Hf;
    repeat split; reflexivity.
Qed.

Lemma create_then_delete_witness :
  exists w' out w'',
    fetch {| target := Post Drafts;
             sent := ParsedObject (Scalar (JString (lit "Old Title")))
                                  (Scalar JNull) |}
          healthy world0 = (w', out)
    /\ fetch {| target := Delete Drafts (lit "old-title"); sent := nobody |}
             healthy w' =
       (w'', inr (Json (Fields [("message",
                                 lit "Draft with slug old-title deleted successfully")])
                       201))
    /\ drafts (db w'') = [].
Proof.
  destruct (@create_then_delete Drafts (Scalar (JString (lit "Old Title")))
              (Scalar JNull) (JString (lit "Old Title"))
              nobody healthy healthy world0
              eq_refl eq_refl eq_refl eq_refl eq_refl)
    as (w' & out & w'' & E & E2 & _ & Hd).
  - vm_compute. discriminate.
  - simpl. tauto.
  - exists w', out, w''. split; [exact E|]. split; [exact E2 | exact Hd].
Defined.

(** X11.  An update is idempotent: the same update again gets the same
    answer and leaves the tables as the first left them. *)
Theorem update_idempotent (t : resource) (s : jsstring) (ti co : value)
    (f f2 : faults) (w : world) :
  connect_fault f = None -> query_fault f = None ->
  connect_fault f2 = None -> query_fault f2 = None ->
  exists w' out w'',
    fetch {| target := Put t s; sent := ParsedObject ti co |} f w
    = (w', inr out)
    /\ fetch {| target := Put t s; sent := ParsedObject ti co |} f2 w'
       = (w'', inr out)
    /\ db w'' = db w'.
Proof.
  intros Hc Hq Hc2 Hq2.
  rewrite (@fetch_update_run f w Hc t s ti co Hq).
  do 3 eexists. split; [reflexivity|].
  rewrite (@fetch_update_run f2 _ Hc2 t s ti co Hq2).
  rewrite !run_update_rows.
  cbn [db closing queried record]. change (db (opening w)) with (db w).
  rewrite run_update_table.
  assert (Hm : map (updated s ti co) (map (updated s ti co) (table t (db w)))
               = map (updated s ti co) (table t (db w))).
  { rewrite map_map. apply map_ext. intros r. apply updated_twice. }
  rewrite Hm. split; [reflexivity|].
  cbn [run fst].
  change (fun r => if hasSlug s r
                   then setFields (prepareValue ti) (prepareValue co) r
                   else r)
    with (updated s ti co).
  rewrite !table_with_table, Hm. now destruct t.
Qed.

Lemma update_idempotent_witness :
  exists w' out w'',
    fetch {| target := Put Posts (lit "old-title");
             sent := ParsedObject (Scalar (JString (lit "T")))
                                  (Scalar JNull) |}
          healthy world0 = (w', inr out)
    /\ fetch {| target := Put Posts (lit "old-title");
                sent := ParsedObject (Scalar (JString (lit "T")))
                                     (Scalar JNull) |}
             healthy w' = (w'', inr out)
    /\ status_of out = 201%Z.
Proof.
  destruct (@update_idempotent Posts (lit "old-title")
              (Scalar (JString (lit "T"))) (Scalar JNull)
              healthy healthy world0
              eq_refl eq_refl eq_refl eq_refl)
    as (w' & out & w'' & E & E2 & _).
  exists w', out, w''. split; [exact E|]. split; [exact E2|].
  vm_compute in E. injection E as _ <-. reflexivity.
Defined.

(** *** An invariant of the tables *)

Lemma run_keeps_slugs q d :
  slugsWellFormed d ->
  match q with
  | InsertRow _ s _ _ => wellFormedSlug s = true
  | _ => True
  end ->
  slugsWellFormed (fst (run q d)).
Proof.
  unfold slugsWellFormed. intros [Hp Hd] Hq.
  assert (Hu : forall ti co s l,
             Forall (fun r => wellFormedSlug (slug r) = true) l ->
             Forall (fun r => wellFormedSlug (slug r) = true)
               (map (fun r => if hasSlug s r then setFields ti co r else r) l)).
  { intros ti co s l H. apply Forall_map. eapply Forall_impl; [|exact H].
    intros r Hr. now destruct (hasSlug s r). }
  assert (Hf : forall (p : row -> bool) l,
             Forall (fun r => wellFormedSlug (slug r) = true) l ->
             Forall (fun r => wellFormedSlug (slug r) = true) (filter p l)).
  { intros p l H. rewrite Forall_forall in *. intros r Hr.
    apply filter_In in Hr. now apply H. }
  destruct q as [t|t s ti co|t ti co s|t s]; destruct t;
    cbn [run fst with_table table posts drafts]; split; auto.
  - apply Forall_app. split; [exact Hp|]. now constructor.
  - apply Forall_app. split; [exact Hd|]. now constructor.
Qed.

(** X12.  No request stores a slug that is not well formed: when every
    slug in the two tables is made of lower case letters, digits,
    underscores and single inner hyphens, it is so again after any
    request, whatever it carries and whatever fails. *)
Theorem stored_slugs_stay_well_formed (req : request) (f : faults)
    (w : world) :
  slugsWellFormed (db w) -> slugsWellFormed (db (fst (fetch req f w))).
Proof.
  intros Hw. destruct (fetch_db req f w) as [->|(q & Hq & ->)]; [exact Hw|].
  apply run_keeps_slugs; [exact Hw|].
  destruct req as [[t|t|t s|t s|] [e|e|ti co]]; cbn in Hq;
    try discriminate;
    try (destruct (asJs ti); try discriminate);
    injection Hq as <-; try exact I.
  apply slugify_wellFormed.
Qed.

Lemma stored_slugs_stay_well_formed_witness :
  slugsWellFormed (db world0)
  /\ slugsWellFormed
       (db (fst (fetch {| target := Post Posts;
                          sent := ParsedObject
                                    (Scalar (JString (lit "Cafe au lait!")))
                                    (Scalar JNull) |}
                       healthy world0))).
Proof.
  assert (H : slugsWellFormed (db world0))
    by (split; repeat constructor).
  split; [exact H|].
  apply (@stored_slugs_stay_well_formed _ healthy world0 H).
Defined.

(** *** More about the slug generator *)

(** X13.  The strings that [slugify] leaves as they are are the
    well-formed slugs, and no others. *)
Theorem slugify_fixed_points (s : jsstring) :
  slugify (JString s) = s <-> wellFormedSlug s = true.
Proof.
  split.
  - intros H. rewrite <- H. apply slugify_wellFormed.
  - intros H. unfold slugify. rewrite slugifyWith_pipeline.
    destruct s as [|c t]; [reflexivity|].
    apply pipeline_fixed; [exact toLowerCase_fixes_slugs | exact H].
Qed.

Lemma space_not_word c : isSpace c = true -> isWord c = false.
Proof. intros H. unit_arith. Qed.

Lemma hyphen_not_word c : isHyphen c = true -> isWord c = false.
Proof. intros H. unit_arith. Qed.

Lemma lowerUnit_space c : isSpace c = true -> lowerUnit c = [c].
Proof.
  intros H. unfold lowerUnit.
  assert (isUpper c = false) as -> by unit_arith.
  assert ((c =? 304)%N = false) as -> by unit_arith.
  assert ((c =? 8490)%N = false) as -> by unit_arith.
  reflexivity.
Qed.

Section WordUnits.
Let words (s : jsstring) : jsstring := filter isWord s.

Lemma words_dropWhile p s :
  (forall c, p c = true -> isWord c = false) ->
  words (dropWhile p s) = words s.
Proof.
  intros Hp. induction s as [|c t IH]; simpl; [reflexivity|].
  destruct (p c) eqn:E; [|reflexivity].
  now rewrite (Hp c E).
Qed.

Lemma words_all p s :
  (forall c, p c = true -> isWord c = false) ->
  forallb p s = true -> words s = [].
Proof.
  intros Hp. induction s as [|c t IH]; simpl; [reflexivity|].
  intros H. apply andb_true_iff in H. destruct H as [Hc Ht].
  rewrite (Hp c Hc). now apply IH.
Qed.

Lemma words_dropWhileEnd p s :
  (forall c, p c = true -> isWord c = false) ->
  words (dropWhileEnd p s) = words s.
Proof.
  intros Hp. induction s as [|c t IH]; [reflexivity|].
  rewrite dropWhileEnd_cons. destruct (forallb p (c :: t)) eqn:E.
  - symmetry. now apply (words_all p).
  - unfold words in *. simpl. now rewrite IH.
Qed.

Lemma words_hyphenateRuns b s : words (hyphenateRuns b s) = words s.
Proof.
  revert b. induction s as [|c t IH]; intros b; simpl; [reflexivity|].
  destruct (isSpace c) eqn:E.
  - rewrite (space_not_word c E). destruct b; simpl; apply IH.
  - unfold words in *. simpl. now rewrite IH.
Qed.

Lemma words_keep s : words (keepWordOrHyphen s) = words s.
Proof.
  unfold words, keepWordOrHyphen.
  induction s as [|c t IH]; simpl; [reflexivity|].
  destruct (isWord c) eqn:E; simpl; [now rewrite E, IH|].
  destruct (isHyphen c); simpl; [now rewrite E|]; exact IH.
Qed.

Lemma words_collapse s : words (collapseHyphens s) = words s.
Proof.
  induction s as [|c t IH]; [reflexivity|].
  rewrite collapseHyphens_cons.
  destruct (isHyphen c && startsWithHyphen t) eqn:E.
  - apply andb_true_iff in E. destruct E as [Ec _].
    unfold words in *. simpl. now rewrite (hyphen_not_word c Ec).
  - unfold words in *. simpl. now rewrite IH.
Qed.

Lemma words_lower_dropWhile s :
  words (toLowerCase (dropWhile isSpace s)) = words (toLowerCase s).
Proof.
  induction s as [|c t IH]; simpl; [reflexivity|].
  destruct (isSpace c) eqn:E; [|reflexivity].
  rewrite IH. unfold words, toLowerCase. simpl.
  rewrite (lowerUnit_space c E). simpl. now rewrite (space_not_word c E).
Qed.

Lemma words_lower_spaces s :
  forallb isSpace s = true -> words (toLowerCase s) = [].
Proof.
  induction s as [|c t IH]; simpl; [reflexivity|].
  intros H. apply andb_true_iff in H. destruct H as [Hc Ht].
  unfold words, toLowerCase in *. simpl.
  rewrite (lowerUnit_space c Hc). simpl.
  rewrite (space_not_word c Hc). now apply IH.
Qed.

Lemma words_lower_dropWhileEnd s :
  words (toLowerCase (dropWhileEnd isSpace s)) = words (toLowerCase s).
Proof.
  induction s as [|c t IH]; [reflexivity|].
  rewrite dropWhileEnd_cons. destruct (forallb isSpace (c :: t)) eqn:E.
  - symmetry. now apply words_lower_spaces.
  - unfold words, toLowerCase in *. simpl. now rewrite !filter_app, IH.
Qed.

Lemma words_pipeline s :
  words (pipeline toLowerCase s) = words (toLowerCase s).
Proof.
  unfold pipeline, stripTrailing, stripLeading.
  rewrite words_dropWhileEnd by exact hyphen_not_word.
  rewrite words_dropWhile by exact hyphen_not_word.
  rewrite words_collapse, words_keep, words_hyphenateRuns.
  unfold trim. now rewrite words_lower_dropWhileEnd, words_lower_dropWhile.
Qed.
End WordUnits.

Lemma slugify_words s :
  filter isWord (slugify (JString s)) = filter isWord (toLowerCase s).
Proof.
  unfold slugify. rewrite slugifyWith_pipeline.
  destruct s as [|c t]; [reflexivity|]. apply words_pipeline.
Qed.

(** X14.  [slugify] keeps the word characters: the letters, digits and
    underscores of the slug are those of the lower-cased input, all of
    them, in their order; what it removes or puts in is white space, other
    characters and hyphens. *)
Theorem slugify_keeps_word_units (s : jsstring) :
  filter isWord (slugify (JString s)) = filter isWord (toLowerCase s).
Proof. apply slugify_words. Qed.

(** X15.  The slug is empty exactly when the lower-cased input has no
    ASCII letter, digit or underscore; so it is for a title written in
    another script. *)
Theorem slugify_empty_iff (s : jsstring) :
  slugify (JString s) = [] <->
  (forall c, In c (toLowerCase s) -> isWord c = false).
Proof.
  split.
  - intros H c Hc. destruct (isWord c) eqn:E; [|reflexivity]. exfalso.
    assert (Hin : In c (filter isWord (toLowerCase s)))
      by (apply filter_In; now split).
    rewrite <- slugify_words, H in Hin. exact Hin.
  - intros H.
    assert (Hw : filter isWord (slugify (JString s)) = []).
    { rewrite slugify_words.
      destruct (filter isWord (toLowerCase s)) as [|c l] eqn:E; [reflexivity|].
      assert (Hin : In c (filter isWord (toLowerCase s)))
        by (rewrite E; now left).
      apply filter_In in Hin. destruct Hin as [Hin Hc].
      now rewrite (H c Hin) in Hc. }
    pose proof (slugify_wellFormed (JString s)) as Hf.
    destruct (slugify (JString s)) as [|c l]; [reflexivity|]. exfalso.
    unfold wellFormedSlug in Hf.
    apply andb_true_iff in Hf. destruct Hf as [Hf _].
    apply andb_true_iff in Hf. destruct Hf as [Hf Hs].
    apply andb_true_iff in Hf. destruct Hf as [Hu _].
    simpl in Hu, Hs, Hw. apply andb_true_iff in Hu. destruct Hu as [Hu _].
    apply negb_true_iff in Hs.
    destruct (isWord c) eqn:E; [discriminate|]. clear - Hu Hs E.
    unit_arith.
Qed.

Lemma lowerUnit_shape c :
  exists x l,
    lowerUnit c = x :: l
    /\ isSpace x = isSpace c
    /\ forallb isSpace (x :: l) = isSpace c
    /\ flat_map lowerUnit (x :: l) = x :: l.
Proof.
  unfold lowerUnit. destruct (isUpper c) eqn:Eu.
  - exists (c + 32)%N, []. split; [reflexivity|].
    assert (isSpace c = false) as -> by unit_arith.
    assert (Hs : isSpace (c + 32) = false) by unit_arith.
    assert (Hl : isUpper (c + 32) = false) by unit_arith.
    assert (H1 : (c + 32 =? 304)%N = false) by unit_arith.
    assert (H2 : (c + 32 =? 8490)%N = false) by unit_arith.
    simpl. unfold lowerUnit. now rewrite Hs, Hl, H1, H2.
  - destruct (N.eqb_spec c 304) as [->|H1].
    + exists 105%N, [775%N]. repeat split; reflexivity.
    + destruct (N.eqb_spec c 8490) as [->|H2].
      * exists 107%N, []. repeat split; reflexivity.
      * exists c, []. split; [reflexivity|]. split; [reflexivity|].
        split; [simpl; apply andb_true_r|].
        simpl. unfold lowerUnit. rewrite Eu.
        destruct (N.eqb_spec c 304); [contradiction|].
        destruct (N.eqb_spec c 8490); [contradiction|]. reflexivity.
Qed.

Lemma lowerUnit_end c :
  isSpace c = false -> dropWhileEnd isSpace (lowerUnit c) = lowerUnit c.
Proof.
  intros Hc. apply dropWhileEnd_keep. unfold lowerUnit.
  destruct (isUpper c) eqn:Eu; [simpl; unit_arith|].
  destruct (N.eqb_spec c 304); [reflexivity|].
  destruct (N.eqb_spec c 8490); [reflexivity|]. exact Hc.
Qed.

Lemma toLowerCase_cons c t :
  toLowerCase (c :: t) = lowerUnit c ++ toLowerCase t.
Proof. reflexivity. Qed.

Lemma toLowerCase_app a b :
  toLowerCase (a ++ b) = toLowerCase a ++ toLowerCase b.
Proof. unfold toLowerCase. apply flat_map_app. Qed.

Lemma toLowerCase_twice s : toLowerCase (toLowerCase s) = toLowerCase s.
Proof.
  induction s as [|c t IH]; [reflexivity|].
  rewrite toLowerCase_cons, toLowerCase_app, IH. f_equal.
  destruct (lowerUnit_shape c) as (x & l & -> & _ & _ & H). exact H.
Qed.

Lemma toLowerCase_spaces s :
  forallb isSpace (toLowerCase s) = forallb isSpace s.
Proof.
  induction s as [|c t IH]; [reflexivity|].
  rewrite toLowerCase_cons, forallb_app, IH.
  destruct (lowerUnit_shape c) as (x & l & -> & _ & -> & _). reflexivity.
Qed.

Lemma toLowerCase_dropWhile s :
  dropWhile isSpace (toLowerCase s) = toLowerCase (dropWhile isSpace s).
Proof.
  induction s as [|c t IH]; [reflexivity|].
  rewrite toLowerCase_cons. cbn [dropWhile].
  destruct (lowerUnit_shape c) as (x & l & E & Hx & Hall & _).
  destruct (isSpace c) eqn:Ec.
  - rewrite (lowerUnit_space c Ec). simpl. now rewrite Ec.
  - rewrite toLowerCase_cons, E. simpl. now rewrite Hx.
Qed.

Lemma dropWhileEnd_app (p : N -> bool) a b :
  dropWhileEnd p (a ++ b) =
  if forallb p b then dropWhileEnd p a else a ++ dropWhileEnd p b.
Proof.
  induction a as [|c t IH]; simpl app.
  - destruct (forallb p b) eqn:E; [|reflexivity].
    unfold dropWhileEnd. rewrite dropWhile_all; [reflexivity|].
    now rewrite forallb_rev.
  - rewrite !dropWhileEnd_cons, IH. cbn [forallb]. rewrite forallb_app.
    destruct (forallb p b); [|now rewrite !andb_false_r].
    now rewrite andb_true_r.
Qed.

Lemma toLowerCase_dropWhileEnd s :
  dropWhileEnd isSpace (toLowerCase s) = toLowerCase (dropWhileEnd isSpace s).
Proof.
  induction s as [|c t IH]; [reflexivity|].
  rewrite toLowerCase_cons, dropWhileEnd_app, dropWhileEnd_cons, IH.
  rewrite toLowerCase_spaces. cbn [forallb].
  destruct (lowerUnit_shape c) as (x & l & E & Hx & Hall & _).
  destruct (forallb isSpace t) eqn:Et.
  - rewrite andb_true_r. destruct (isSpace c) eqn:Ec.
    + rewrite (lowerUnit_space c Ec). unfold dropWhileEnd. simpl.
      now rewrite Ec.
    + rewrite toLowerCase_cons.
      assert (Hd : dropWhileEnd isSpace t = []).
      { unfold dropWhileEnd. rewrite dropWhile_all; [reflexivity|].
        now rewrite forallb_rev. }
      rewrite Hd. cbn [toLowerCase flat_map]. rewrite app_nil_r.
      now apply lowerUnit_end.
  - rewrite andb_false_r. now rewrite toLowerCase_cons.
Qed.

Lemma toLowerCase_trim s : trim (toLowerCase s) = toLowerCase (trim s).
Proof.
  unfold trim. now rewrite toLowerCase_dropWhile, toLowerCase_dropWhileEnd.
Qed.

Lemma toLowerCase_nil s : toLowerCase s = [] -> s = [].
Proof.
  destruct s as [|c t]; [reflexivity|]. rewrite toLowerCase_cons.
  destruct (lowerUnit_shape c) as (x & l & -> & _). discriminate.
Qed.

(** X16.  [slugify] does not tell the case of its input: a string and
    its lower-cased form have the same slug, so two titles that differ in
    the case of their letters get one slug. *)
Theorem slugify_ignores_case (s : jsstring) :
  slugify (JString (toLowerCase s)) = slugify (JString s).
Proof.
  unfold slugify. rewrite !slugifyWith_pipeline.
  destruct s as [|c t]; [reflexivity|].
  destruct (toLowerCase (c :: t)) as [|x l] eqn:E;
    [apply toLowerCase_nil in E; discriminate|].
  rewrite <- E. unfold pipeline.
  now rewrite toLowerCase_trim, toLowerCase_twice.
Qed.

(** *** The connection parameters *)

Lemma digit_not_space c : isDigit c = true -> isSpace c = false.
Proof. intros H. unit_arith. Qed.

Lemma readDigits_run ds rest acc :
  forallb isDigit ds = true ->
  match rest with c :: _ => isDigit c = false | [] => True end ->
  readDigits acc (ds ++ rest)
  = fold_left (fun a c => (10 * a + Z.of_N (c - 48))%Z) ds acc.
Proof.
  intros Hd Hr. revert acc. induction ds as [|c t IH]; intros acc.
  - simpl. destruct rest as [|c r]; [reflexivity|]. simpl. now rewrite Hr.
  - simpl in *. apply andb_true_iff in Hd. destruct Hd as [Hc Ht].
    rewrite Hc. now apply IH.
Qed.

Lemma parseInt10_spaces s : forallb isSpace s = true -> parseInt10 s = NaN.
Proof.
  intros H. unfold parseInt10. now rewrite (dropWhile_all isSpace s H).
Qed.

Lemma parseInt10_digits ws ds rest :
  forallb isSpace ws = true ->
  ds <> [] -> forallb isDigit ds = true ->
  match rest with c :: _ => isDigit c = false | [] => True end ->
  parseInt10 (ws ++ ds ++ rest) = toNumber (decimalValue ds).
Proof.
  intros Hw Hne Hd Hr. unfold parseInt10, decimalValue.
  assert (Hdrop : dropWhile isSpace (ws ++ ds ++ rest) = ds ++ rest).
  { induction ws as [|c t IH]; simpl in *.
    - destruct ds as [|d l]; [contradiction|]. simpl in *.
      apply andb_true_iff in Hd. destruct Hd as [Hd _].
      now rewrite (digit_not_space d Hd).
    - apply andb_true_iff in Hw. destruct Hw as [-> Ht]. now apply IH. }
  rewrite Hdrop. destruct ds as [|d l]; [contradiction|].
  pose proof Hd as Hd'. simpl in Hd'. apply andb_true_iff in Hd'.
  destruct Hd' as [Hd0 _].
  assert (Hsign : match (d :: l) ++ rest with
                  | 45%N :: t => ((-1)%Z, t)
                  | 43%N :: t => (1%Z, t)
                  | _ => (1%Z, (d :: l) ++ rest)
                  end = (1%Z, (d :: l) ++ rest)).
  { simpl. destruct (N.eqb_spec d 45) as [->|]; [discriminate|].
    destruct (N.eqb_spec d 43) as [->|]; [discriminate|].
    clear - n n0. destruct d as [|q]; [reflexivity|].
    repeat (destruct q as [q|q|]; try reflexivity; try contradiction). }
  rewrite Hsign. cbn [fst snd app]. rewrite Hd0.
  change (d :: l ++ rest) with ((d :: l) ++ rest).
  rewrite (readDigits_run (d :: l) rest 0 Hd Hr).
  now rewrite Z.mul_1_l.
Qed.

Lemma decimalValue_nonneg ds : (0 <= decimalValue ds)%Z.
Proof.
  unfold decimalValue.
  assert (H : forall acc, (0 <= acc)%Z ->
            (0 <= fold_left (fun a c => (10 * a + Z.of_N (c - 48))%Z) ds acc)%Z).
  { induction ds as [|c t IH]; intros acc Ha; cbn [fold_left]; [exact Ha|].
    apply IH. pose proof (N2Z.is_nonneg (c - 48)). lia. }
  apply H. lia.
Qed.

(** X17.  The port handed to the database client is 10708 when
    [DB_PORT] is not set.  When it is set the default plays no part: a
    value that is empty or blank gives NaN, and a value that begins,
    after white space, with decimal digits gives the number they write,
    whatever follows them, as long as that number is below 2^53, where a
    double holds it exactly.  The certificate of the server is verified
    only when [DB_SSL] is the string [true], letter for letter. *)
Theorem port_and_certificate_check (env : environment) (ca_pem : jsstring) :
  (DB_PORT env = None -> port (dbConfigOf env ca_pem) = Exact 10708%Z)
  /\ (forall s,
        DB_PORT env = Some s -> forallb isSpace s = true ->
        port (dbConfigOf env ca_pem) = NaN)
  /\ (forall ws ds rest,
        DB_PORT env = Some (ws ++ ds ++ rest) ->
        forallb isSpace ws = true ->
        ds <> [] -> forallb isDigit ds = true ->
        (decimalValue ds < 2 ^ 53)%Z ->
        match rest with c :: _ => isDigit c = false | [] => True end ->
        port (dbConfigOf env ca_pem) = Exact (decimalValue ds))
  /\ (rejectUnauthorized (dbConfigOf env ca_pem) = true
      <-> DB_SSL env = Some (lit "true")).
Proof.
  unfold dbConfigOf. cbn [port rejectUnauthorized].
  split; [|split; [|split]].
  - intros ->. reflexivity.
  - intros s -> Hs. now apply parseInt10_spaces.
  - intros ws ds rest -> Hw Hne Hd Hb Hr.
    rewrite (parseInt10_digits ws rest Hw Hne Hd Hr). unfold toNumber.
    pose proof (decimalValue_nonneg ds) as H0.
    rewrite Z.abs_eq by exact H0.
    now apply Z.ltb_lt in Hb; rewrite Hb.
  - destruct (DB_SSL env) as [s|]; [|split; discriminate].
    rewrite jsstring_eqb_eq. split; congruence.
Qed.

Lemma port_and_certificate_check_witness :
  port (dbConfigOf sampleEnv []) = Exact 5432%Z
  /\ rejectUnauthorized (dbConfigOf sampleEnv []) = false.
Proof.
  destruct (@port_and_certificate_check sampleEnv []) as (_ & _ & Hp & Hs).
  split.
  - apply (Hp (lit " ") (lit "5432") []); try reflexivity. discriminate.
  - apply not_true_is_false. intros E. apply Hs in E. discriminate.
Defined.

End Behaviours.
